(** * Highlight Non-ASCII: a shallow embedding of [src/main.ts]

    The plugin marks every character above U+007F, on two surfaces: the
    CodeMirror editor ([buildDecorations]) and the rendered reading view
    ([highlightNonAsciiInReading]).  A user allowlist ([buildAllowedSet])
    exempts characters, and a frontmatter key can switch a note off
    ([isFileDisabledByFrontmatter]).

    JavaScript strings are sequences of UTF-16 code units; they are modelled
    as [list N].  Offsets and lengths count code units and are [nat].  The
    [Set<string>] of the allowlist is a [gset (list N)]. *)

From Stdlib Require Import String Ascii.
From stdpp Require Import base decidable numbers list gmap sets.

Set Warnings "-clear-no-such-hyp,-register-all".

Abbreviation jsstring := (list N).

(** ** The JavaScript string primitives the plugin calls *)

Module JS.

(** An ASCII literal of the source as code units. *)
Fixpoint lit (s : string) : jsstring :=
  match s with
  | EmptyString => []
  | String c rest => N_of_ascii c :: lit rest
  end.

Definition isLeadingSurrogate (u : N) : bool :=
  ((0xD800 <=? u) && (u <=? 0xDBFF))%N.

Definition isTrailingSurrogate (u : N) : bool :=
  ((0xDC00 <=? u) && (u <=? 0xDFFF))%N.

(** [UTF16SurrogatePairToCodePoint]. *)
Definition surrogatePairToCodePoint (lead trail : N) : N :=
  ((lead - 0xD800) * 0x400 + (trail - 0xDC00) + 0x10000)%N.

(** [String.prototype.slice(start)] for a start that is not negative. *)
Definition slice (s : jsstring) (start : nat) : jsstring := drop start s.

(** [String.prototype.codePointAt(pos)]: [undefined] past the end, the
    combined code point on a well-formed pair, else the code unit. *)
Definition codePointAt (s : jsstring) (pos : nat) : option N :=
  match drop pos s with
  | [] => None
  | first :: rest =>
      if isLeadingSurrogate first then
        match rest with
        | second :: _ =>
            if isTrailingSurrogate second
            then Some (surrogatePairToCodePoint first second)
            else Some first
        | [] => Some first
        end
      else Some first
  end.

(** [Array.from(s)]: the string iterator walks by code point; a leading
    surrogate followed by a trailing one is one two-unit element, any other
    unit (lone surrogates included) is a one-unit element. *)
Fixpoint Array_from (s : jsstring) : list jsstring :=
  match s with
  | [] => []
  | first :: rest =>
      match rest with
      | second :: rest' =>
          if isLeadingSurrogate first && isTrailingSurrogate second
          then [first; second] :: Array_from rest'
          else [first] :: Array_from rest
      | [] => [[first]]
      end
  end.

(** ECMAScript [WhiteSpace] and [LineTerminator] code points, the ones
    [String.prototype.trim] strips. *)
Definition isWhiteSpace (u : N) : bool :=
  ((u =? 0x0009) || (u =? 0x000A) || (u =? 0x000B) || (u =? 0x000C)
   || (u =? 0x000D) || (u =? 0x0020) || (u =? 0x00A0) || (u =? 0x1680)
   || ((0x2000 <=? u) && (u <=? 0x200A))
   || (u =? 0x2028) || (u =? 0x2029) || (u =? 0x202F) || (u =? 0x205F)
   || (u =? 0x3000) || (u =? 0xFEFF))%N.

Fixpoint trimStart (s : jsstring) : jsstring :=
  match s with
  | [] => []
  | u :: rest => if isWhiteSpace u then trimStart rest else s
  end.

Definition trimEnd (s : jsstring) : jsstring := rev (trimStart (rev s)).

(** [String.prototype.trim]. *)
Definition trim (s : jsstring) : jsstring := trimEnd (trimStart s).

(** [a === b] on strings. *)
Definition strEq (a b : jsstring) : bool := bool_decide (a = b).

End JS.

(** ** Helpers *)

(** [new Set<string>()], [set.add(ch)], [set.has(ch)]. *)
Definition Set_add (ch : jsstring) (set : gset jsstring) : gset jsstring :=
  {[ch]} ∪ set.

Definition Set_has (set : gset jsstring) (ch : jsstring) : bool :=
  bool_decide (ch ∈ set).

Definition NBSP : jsstring := [0x00A0%N].

(** The loop body of [buildAllowedSet]: [continue] on trimmed-empty
    characters other than U+00A0, [set.add] otherwise. *)
Definition allowedStep (set : gset jsstring) (ch : jsstring) : gset jsstring :=
  if JS.strEq (JS.trim ch) [] && negb (JS.strEq ch NBSP) then set
  else Set_add ch set.

Definition buildAllowedSet (allowedChars : jsstring) : gset jsstring :=
  fold_left allowedStep (JS.Array_from allowedChars) ∅.


(** ** Edit mode (CodeMirror 6 extension) *)

Definition FRONTMATTER_KEY : jsstring := JS.lit "highlight-non-ascii".

Record SettingsFieldValue := {
  enabled : bool;
  allowedSet : gset jsstring;
  frontmatterDisabled : bool
}.

(** What [buildDecorations] reads of an [EditorView]: the document text, the
    visible ranges [{from, to}] and the value of [settingsField]. *)
Record EditorView := {
  doc : jsstring;
  visibleRanges : list (nat * nat);
  settingsField : SettingsFieldValue
}.

(** [doc.sliceString(from, to)]. *)
Definition sliceString (d : jsstring) (from to : nat) : jsstring :=
  take (to - from) (drop from d).

(** A mark decoration of class [non-ascii-highlight] over [[from, to)].  The
    [builder] of the scan below records the calls of [builder.add] in call
    order; what the [RangeSetBuilder] of CodeMirror makes of these calls
    (a range set, or an exception on a call that is out of order) is
    [RangeSetBuilder_addAll], and [buildDecorationsResult] is what the
    method returns. *)
Definition Range : Type := nat * nat.

Definition Decoration_none : list Range := [].

(** The test guarding both the outer and the peek-ahead branch:
    [code !== undefined && code > 0x7f && !allowedSet.has(ch)]. *)
Definition isFlagged (allowed : gset jsstring) (ch : jsstring) : bool :=
  match JS.codePointAt ch 0 with
  | Some code => (0x7f <? code)%N && negb (Set_has allowed ch)
  | None => false
  end.

(** The peek-ahead loop over [remaining]: [runEnd] grows by the length of
    each flagged character and the loop breaks at the first other one. *)
Fixpoint peekAhead (allowed : gset jsstring) (remaining : list jsstring)
    (runEnd : nat) : nat :=
  match remaining with
  | [] => runEnd
  | nextCh :: rest =>
      if isFlagged allowed nextCh
      then peekAhead allowed rest (runEnd + length nextCh)
      else runEnd
  end.

(** The loop variables of one visible range, with the builder. *)
Record ScanState := {
  idx : nat;             (* [i] *)
  pos : nat;
  builder : list Range
}.

(** One turn of [for (const ch of Array.from(text))].  The [continue] of the
    flagged branch moves [i] and [pos] past the run; the iteration itself
    goes on with the next element of the array. *)
Definition scanStep (allowed : gset jsstring) (text : jsstring)
    (st : ScanState) (ch : jsstring) : ScanState :=
  let charLen := length ch in
  if isFlagged allowed ch then
    let runEnd :=
      peekAhead allowed (JS.Array_from (JS.slice text (idx st + charLen)))
                (pos st + charLen) in
    let skippedLen := runEnd - pos st in
    {| idx := idx st + skippedLen;
       pos := runEnd;
       builder := builder st ++ [(pos st, runEnd)] |}
  else
    {| idx := idx st + charLen;
       pos := pos st + charLen;
       builder := builder st |}.

(** The body of [for (const { from, to } of view.visibleRanges)]. *)
Definition scanRange (allowed : gset jsstring) (d : jsstring)
    (b : list Range) (r : nat * nat) : list Range :=
  let text := sliceString d r.1 r.2 in
  builder (fold_left (scanStep allowed text) (JS.Array_from text)
                     {| idx := 0; pos := r.1; builder := b |}).

(** The calls of [builder.add] that [buildDecorations] makes, in order, as
    long as none of them throws; none at all when highlighting is off and
    the method returns [Decoration.none] at once. *)
Definition buildDecorations (view : EditorView) : list Range :=
  let f := settingsField view in
  if negb (enabled f) || frontmatterDisabled f then Decoration_none
  else fold_left (scanRange (allowedSet f) (doc view)) (visibleRanges view) [].

(** The scan of one text shown as a single visible range from offset 0. *)
Definition scanText (allowed : gset jsstring) (text : jsstring) : list Range :=
  buildDecorations
    {| doc := text;
       visibleRanges := [(0, length text)];
       settingsField := {| enabled := true; allowedSet := allowed;
                           frontmatterDisabled := false |} |}.

(** *** The range set builder ([@codemirror/state])

    A range set is a list of layers, each holding ranges in ascending order;
    [Decoration.none] is the set without layers.  [add(from, to, value)]
    looks at the last range of the layer: with
    [diff = from - lastTo || value.startSide - last.endSide] it throws
    "Ranges must be added sorted" when [diff <= 0] and [from < lastFrom],
    hands the range to the next layer when [diff < 0], and appends it
    otherwise.  All values here are the same mark, whose [startSide] lies
    above its [endSide], so [diff <= 0] and [diff < 0] both mean
    [from < lastTo]. *)
Definition DecorationSet : Type := list (list Range).

Fixpoint RangeSetBuilder_add (layers : DecorationSet) (r : Range)
    : option DecorationSet :=
  match layers with
  | [] => Some [[r]]
  | layer :: nextLayer =>
      match last layer with
      | None => Some ((layer ++ [r]) :: nextLayer)
      | Some lst =>
          if (r.1 <? lst.2) && (r.1 <? lst.1) then None
          else if r.1 <? lst.2
               then cons layer <$> RangeSetBuilder_add nextLayer r
               else Some ((layer ++ [r]) :: nextLayer)
      end
  end.

(** The calls in order; [None] as soon as one throws. *)
Fixpoint RangeSetBuilder_addAll (layers : DecorationSet) (adds : list Range)
    : option DecorationSet :=
  match adds with
  | [] => Some layers
  | r :: rest =>
      match RangeSetBuilder_add layers r with
      | Some layers' => RangeSetBuilder_addAll layers' rest
      | None => None
      end
  end.

(** What [buildDecorations] returns: [Decoration.none] or
    [builder.finish()], or [None] when a call of [builder.add] throws. *)
Definition buildDecorationsResult (view : EditorView)
    : option DecorationSet :=
  RangeSetBuilder_addAll [] (buildDecorations view).


(** ** Reading view (post processor) *)

(** The part of the DOM the post processor touches: text nodes and elements
    with a tag, an optional class and children. *)
Inductive Node :=
| Text (data : jsstring)
| Element (tag : string) (cls : option string) (children : list Node).

(** [node.textContent]. *)
Fixpoint textContent (n : Node) : jsstring :=
  match n with
  | Text data => data
  | Element _ _ children => concat (map textContent children)
  end.

Definition HIGHLIGHT_CLASS : string := "non-ascii-highlight".

(** [wrapper.createSpan({ cls: "non-ascii-highlight", text })] and
    [wrapper.appendText(text)], as the child each one appends. *)
Definition highlightSpan (text : jsstring) : Node :=
  Element "span" (Some HIGHLIGHT_CLASS) [Text text].

(** The locals of the [nodes.forEach] callback; [wrapper] holds the
    children of the span made by [createSpan()]. *)
Record ReadState := {
  wrapper : list Node;
  inHighlight : bool;
  buffer : jsstring
}.

Definition flushBuffer (st : ReadState) : ReadState :=
  if length (buffer st) =? 0 then st
  else
    {| wrapper :=
         wrapper st ++
           [if inHighlight st then highlightSpan (buffer st)
            else Text (buffer st)];
       inHighlight := inHighlight st;
       buffer := [] |}.

Definition setInHighlight (b : bool) (st : ReadState) : ReadState :=
  {| wrapper := wrapper st; inHighlight := b; buffer := buffer st |}.

Definition appendBuffer (ch : jsstring) (st : ReadState) : ReadState :=
  {| wrapper := wrapper st; inHighlight := inHighlight st;
     buffer := buffer st ++ ch |}.

(** One turn of [for (const ch of Array.from(node.textContent || ""))]. *)
Definition readStep (allowed : gset jsstring) (st : ReadState)
    (ch : jsstring) : ReadState :=
  let shouldHighlight := isFlagged allowed ch in
  if shouldHighlight then
    appendBuffer ch
      (if inHighlight st then st else setInHighlight true (flushBuffer st))
  else
    appendBuffer ch
      (if inHighlight st then setInHighlight false (flushBuffer st) else st).

(** The span that replaces one collected text node. *)
Definition wrapNode (allowed : gset jsstring) (content : jsstring) : Node :=
  let st :=
    fold_left (readStep allowed) (JS.Array_from content)
              {| wrapper := []; inHighlight := false; buffer := [] |} in
  Element "span" None (wrapper (flushBuffer st)).

(** [textNode.textContent && /[^\x00-\x7F]/.test(textNode.textContent)]:
    the regular expression has no [u] flag and tests code units. *)
Definition hasNonAscii (content : jsstring) : bool :=
  negb (length content =? 0) && existsb (fun u => 0x7F <? u)%N content.

(** The tree walker collects the text nodes below [el] first and the
    callback then replaces each one in its parent; no replacement is walked
    again, so the result is the tree with every collected node swapped. *)
Fixpoint replaceTextNodes (allowed : gset jsstring) (n : Node) : Node :=
  match n with
  | Text data => if hasNonAscii data then wrapNode allowed data else Text data
  | Element tag cls children =>
      Element tag cls (map (replaceTextNodes allowed) children)
  end.

(** [nextNode()] never returns the root itself, so a root that is a text
    node is left alone; an element root has its descendants rewritten. *)
Definition highlightNonAsciiInReading (el : Node)
    (allowed : gset jsstring) : Node :=
  match el with
  | Text data => Text data
  | Element tag cls children =>
      Element tag cls (map (replaceTextNodes allowed) children)
  end.

(** ** Plugin *)

(** Frontmatter values are untyped. *)
Inductive JSValue :=
| JUndefined
| JNull
| JBoolean (b : bool)
| JNumber (z : Z)
| JString (s : jsstring)
| JObject (ref : nat).

Record TFile := { path : jsstring }.

Inductive TAbstractFile :=
| AFile (file : TFile)
| AFolder (folderPath : jsstring).

Record CachedMetadata := {
  frontmatter : option (gmap jsstring JSValue)
}.

Record HighlightNonAsciiSettings := {
  settings_enabled : bool;
  allowedChars : jsstring;
  customCSS : jsstring
}.

(** The host services the plugin queries. *)
Record App := {
  getAbstractFileByPath : jsstring -> option TAbstractFile;
  getFileCache : TFile -> option CachedMetadata;
  (* [workspace.getActiveViewOfType(MarkdownView)?.file] *)
  activeFile : option TFile
}.

Record Plugin := {
  app : App;
  settings : HighlightNonAsciiSettings
}.

(** [cache?.frontmatter?.[FRONTMATTER_KEY]]. *)
Definition frontmatterValue (a : App) (file : TFile) : JSValue :=
  match getFileCache a file with
  | None => JUndefined
  | Some cache =>
      match frontmatter cache with
      | None => JUndefined
      | Some fm => default JUndefined (fm !! FRONTMATTER_KEY)
      end
  end.

(** [value === false || value === "false"]. *)
Definition isDisablingValue (value : JSValue) : bool :=
  match value with
  | JBoolean false => true
  | JString s => JS.strEq s (JS.lit "false")
  | _ => false
  end.

Definition isFileDisabledByFrontmatter (p : Plugin) (file : TFile) : bool :=
  isDisablingValue (frontmatterValue (app p) file).

Definition isActiveFileDisabledByFrontmatter (p : Plugin) : bool :=
  match activeFile (app p) with
  | None => false
  | Some file => isFileDisabledByFrontmatter p file
  end.

(** [settingsField.create()]. *)
Definition settingsField_create (p : Plugin) : SettingsFieldValue :=
  {| enabled := settings_enabled (settings p);
     allowedSet := buildAllowedSet (allowedChars (settings p));
     frontmatterDisabled := isActiveFileDisabledByFrontmatter p |}.

Inductive Effect :=
| toggleHighlight (value : bool)
| updateAllowlist (value : jsstring)
| updateFrontmatterDisabled (value : bool).

(** [settingsField.update(value, tr)], folding over [tr.effects]. *)
Definition applyEffect (updated : SettingsFieldValue) (e : Effect)
    : SettingsFieldValue :=
  match e with
  | toggleHighlight v =>
      {| enabled := v; allowedSet := allowedSet updated;
         frontmatterDisabled := frontmatterDisabled updated |}
  | updateAllowlist v =>
      {| enabled := enabled updated; allowedSet := buildAllowedSet v;
         frontmatterDisabled := frontmatterDisabled updated |}
  | updateFrontmatterDisabled v =>
      {| enabled := enabled updated; allowedSet := allowedSet updated;
         frontmatterDisabled := v |}
  end.

Definition settingsField_update (value : SettingsFieldValue)
    (effects : list Effect) : SettingsFieldValue :=
  fold_left applyEffect effects value.

(** The callback of [registerMarkdownPostProcessor]: the rendered element
    after the call, for a context with the given [sourcePath]. *)
Definition postProcessor (p : Plugin) (el : Node) (sourcePath : jsstring)
    : Node :=
  if negb (settings_enabled (settings p)) then el
  else
    let disabled :=
      if negb (length sourcePath =? 0) then
        match getAbstractFileByPath (app p) sourcePath with
        | Some (AFile file) => isFileDisabledByFrontmatter p file
        | _ => false
        end
      else false in
    if disabled then el
    else highlightNonAsciiInReading el (buildAllowedSet (allowedChars (settings p))).

(** The offsets, in code units of the text, of the highlighted spans among
    the children of a wrapper. *)
Fixpoint highlightBounds (children : list Node) (offset : nat) : list Range :=
  match children with
  | [] => []
  | c :: rest =>
      let stop := offset + length (textContent c) in
      match c with
      | Element _ (Some _) _ => (offset, stop) :: highlightBounds rest stop
      | _ => highlightBounds rest stop
      end
  end.

Definition readingRuns (allowed : gset jsstring) (content : jsstring)
    : list Range :=
  match wrapNode allowed content with
  | Element _ _ children => highlightBounds children 0
  | Text _ => []
  end.


(** The [update] method of the view plugin: the decorations are rebuilt on a
    document or viewport change and on any of the three effects, and kept
    otherwise; [None] when the rebuild throws. *)
Inductive TrEffect :=
| Own (e : Effect)
| Foreign.

Record ViewUpdate := {
  docChanged : bool;
  viewportChanged : bool;
  transactions : list (list TrEffect);
  view : EditorView
}.

Definition isOwnEffect (e : TrEffect) : bool :=
  match e with
  | Own _ => true
  | Foreign => false
  end.

Definition plugin_update (decorations : DecorationSet) (u : ViewUpdate)
    : option DecorationSet :=
  if docChanged u || viewportChanged u
     || existsb (existsb isOwnEffect) (transactions u)
  then buildDecorationsResult (view u)
  else Some decorations.

(** * Specification vocabulary *)

(** ** Code points *)

Definition isPair (first second : N) : bool :=
  JS.isLeadingSurrogate first && JS.isTrailingSurrogate second.

(** A string that holds exactly one code point, as the iterator yields. *)
Inductive CodePointString : jsstring -> Prop :=
| cp_unit u : CodePointString [u]
| cp_pair lead trail :
    JS.isLeadingSurrogate lead = true ->
    JS.isTrailingSurrogate trail = true ->
    CodePointString [lead; trail].

(** ** Allowlist and reading view *)

(** What [buildAllowedSet] keeps: anything [trim] does not empty, and the
    no-break space. *)
Definition kept (ch : jsstring) : Prop := JS.trim ch <> [] \/ ch = NBSP.

(** The text gathered so far: what the wrapper holds, then the buffer. *)
Definition stateText (st : ReadState) : jsstring :=
  concat (map textContent (wrapper st)) ++ buffer st.

(** A text whose code points are all flagged ([b = true]) or all not
    flagged ([b = false]). *)
Definition uniformText (allowed : gset jsstring) (b : bool) (t : jsstring) : Prop :=
  Forall (fun ch => isFlagged allowed ch = b) (JS.Array_from t).

(** The children a wrapper may hold: plain text of unflagged code points, or
    a highlight span around flagged ones. *)
Inductive Fragment (allowed : gset jsstring) : Node -> Prop :=
| frag_plain t :
    t <> [] -> uniformText allowed false t -> Fragment allowed (Text t)
| frag_highlight t :
    t <> [] -> uniformText allowed true t -> Fragment allowed (highlightSpan t).

(** A stretch of code points of one kind, and the child made of it. *)
Definition renderGroup (g : bool * list jsstring) : Node :=
  if g.1 then highlightSpan (concat g.2) else Text (concat g.2).

Definition groupOK (allowed : gset jsstring) (g : bool * list jsstring)
    : Prop :=
  g.2 <> []
  /\ Forall (fun ch => isFlagged allowed ch = g.1 /\ ch <> []) g.2.

(** The state of the reading-view loop once the code points [done] have
    been read: the wrapper holds the finished stretches, the buffer the
    stretch in hand, together they are [done]. *)
Definition readInv (allowed : gset jsstring) (done : list jsstring)
    (st : ReadState) : Prop :=
  exists groups bufchs,
    wrapper st = map renderGroup groups
    /\ Forall (groupOK allowed) groups
    /\ buffer st = concat bufchs
    /\ Forall (fun ch => isFlagged allowed ch = inHighlight st /\ ch <> [])
              bufchs
    /\ concat (map snd groups) ++ bufchs = done.

(** ** Runs of the editor *)

Definition shiftRange (k : nat) (r : Range) : Range := (k + r.1, k + r.2).

Definition prependBuilder (b : list Range) (st : ScanState) : ScanState :=
  {| idx := idx st; pos := pos st; builder := b ++ builder st |}.

Definition shiftState (k : nat) (st : ScanState) : ScanState :=
  {| idx := idx st; pos := k + pos st;
     builder := map (shiftRange k) (builder st) |}.

(** Runs in ascending order between two offsets: each one starts at or
    after the end of the one before and is not empty. *)
Fixpoint runsBetween (lo : nat) (runs : list Range) (hi : nat) : Prop :=
  match runs with
  | [] => lo <= hi
  | r :: rest => lo <= r.1 /\ r.1 < r.2 /\ runsBetween r.2 rest hi
  end.

(** ** What the specification asks of a run set, as decidable checks *)

(** The code points of a text with the offset, in code units, of each. *)
Fixpoint codePointsFrom (offset : nat) (chs : list jsstring)
    : list (nat * jsstring) :=
  match chs with
  | [] => []
  | ch :: rest => (offset, ch) :: codePointsFrom (offset + length ch) rest
  end.

Definition codePoints (text : jsstring) : list (nat * jsstring) :=
  codePointsFrom 0 (JS.Array_from text).

(** The code point [c] lies inside the run [r]. *)
Definition inside (r : Range) (c : nat * jsstring) : bool :=
  (r.1 <=? c.1) && (c.1 + length c.2 <=? r.2).

Definition runsHolding (runs : list Range) (c : nat * jsstring) : nat :=
  length (List.filter (fun r => inside r c) runs).

(** Coverage: a flagged code point is inside exactly one run, any other
    inside none. *)
Definition coverageComplete (allowed : gset jsstring) (text : jsstring)
    (runs : list Range) : bool :=
  forallb (fun c => runsHolding runs c
                    =? (if isFlagged allowed c.2 then 1 else 0))
          (codePoints text).

(** Maximality: consecutive runs neither overlap nor touch. *)
Fixpoint separated (runs : list Range) : bool :=
  match runs with
  | r :: rest =>
      match rest with
      | r' :: _ => (r.2 <? r'.1) && separated rest
      | [] => true
      end
  | [] => true
  end.

(** The offsets at which a code point of the text starts or ends. *)
Definition boundaries (text : jsstring) : list nat :=
  0 :: map (fun c => c.1 + length c.2) (codePoints text).

Definition onBoundary (text : jsstring) (k : nat) : bool :=
  existsb (Nat.eqb k) (boundaries text).

(** The offset [k] falls between the two units of a surrogate pair. *)
Definition splitsPair (text : jsstring) (k : nat) : bool :=
  match k with
  | 0 => false
  | S j =>
      match text !! j, text !! k with
      | Some lead, Some trail => isPair lead trail
      | _, _ => false
      end
  end.

Definition boundarySafe (text : jsstring) (runs : list Range) : bool :=
  forallb (fun r => onBoundary text r.1 && onBoundary text r.2) runs.

(** ** The run detector as the specification words it

    Section 4.2: walk the code points with the current offset; open a run on
    entering a flagged code point, close it (end exclusive) on leaving one
    or at the end of the input; emit the closed runs in scan order. *)
Fixpoint specScan (allowed : gset jsstring) (chs : list jsstring)
    (offset : nat) (openRun : option nat) : list Range :=
  match chs with
  | [] =>
      match openRun with
      | Some start => [(start, offset)]
      | None => []
      end
  | ch :: rest =>
      if isFlagged allowed ch then
        specScan allowed rest (offset + length ch)
                 (Some (default offset openRun))
      else
        match openRun with
        | Some start =>
            (start, offset) :: specScan allowed rest (offset + length ch) None
        | None => specScan allowed rest (offset + length ch) None
        end
  end.

Definition specRuns (allowed : gset jsstring) (text : jsstring) : list Range :=
  specScan allowed (JS.Array_from text) 0 None.

(** The length of the text a wrapper holds, and the run the reading-view
    loop has open: the highlighted buffer starts where the wrapper ends. *)
Definition wrapperLength (st : ReadState) : nat :=
  length (concat (map textContent (wrapper st))).

Definition openOf (st : ReadState) : option nat :=
  if inHighlight st then Some (wrapperLength st) else None.

(** Characters of the examples. *)
Definition e_acute : N := 0xE9%N.
Definition letter_a : N := 0x61%N.
Definition letter_b : N := 0x62%N.

(** ** A sample vault

    One note, [note.md], whose frontmatter holds the key with a given
    value; the note is open in the active view. *)

Definition sampleFile : TFile := {| path := JS.lit "note.md" |}.

Definition sampleApp (value : JSValue) : App :=
  {| getAbstractFileByPath := fun pth =>
       if JS.strEq pth (JS.lit "note.md") then Some (AFile sampleFile)
       else None;
     getFileCache := fun _ =>
       Some {| frontmatter := Some {[ FRONTMATTER_KEY := value ]} |};
     activeFile := Some sampleFile |}.

Definition samplePlugin (globalEnabled : bool) (value : JSValue) : Plugin :=
  {| app := sampleApp value;
     settings := {| settings_enabled := globalEnabled;
                    allowedChars := [];
                    customCSS := [] |} |}.

Definition sampleElement : Node :=
  Element "p" None [Text [letter_a; e_acute; e_acute; letter_b]].

Definition sampleView (p : Plugin) (d : jsstring)
    (ranges : list (nat * nat)) : EditorView :=
  {| doc := d; visibleRanges := ranges;
     settingsField := settingsField_create p |}.

(** * The rest of the plugin *)

(** ** Settings ([loadSettings], the toggle command) *)

Definition LF : jsstring := [0x0A%N].

Definition DEFAULT_CSS : jsstring :=
  JS.lit ".non-ascii-highlight {" ++ LF
  ++ JS.lit "  background-color: rgba(255, 60, 60, 1);" ++ LF
  ++ JS.lit "  padding: 1px;" ++ LF
  ++ JS.lit "  border: 1px solid rgb(255, 255, 255);" ++ LF
  ++ JS.lit "  border-radius: 2px;" ++ LF
  ++ JS.lit "}".

(** The settings as the object they are at run time: [loadData] returns
    untyped JSON and nothing checks it. *)
Definition DEFAULT_SETTINGS : gmap jsstring JSValue :=
  {[ JS.lit "enabled" := JBoolean true;
     JS.lit "allowedChars" := JString [];
     JS.lit "customCSS" := JString DEFAULT_CSS ]}.

Definition PROTO : jsstring := JS.lit "__proto__".

(** The own properties after [Object.assign(target, source)] on a plain
    target: the own properties of the source overwrite those of the target,
    except a source key [__proto__], which goes through the setter of
    [Object.prototype] and leaves no own property; a [null] source is
    skipped. *)
Definition Object_assign (target : gmap jsstring JSValue)
    (source : option (gmap jsstring JSValue)) : gmap jsstring JSValue :=
  match source with
  | Some o => delete PROTO o ∪ target
  | None => target
  end.

(** The own properties of [Object.assign({}, DEFAULT_SETTINGS, data)] for
    the [data] that [loadData] returned ([null] when nothing was saved). *)
Definition loadSettings (data : option (gmap jsstring JSValue))
    : gmap jsstring JSValue :=
  Object_assign (Object_assign ∅ (Some DEFAULT_SETTINGS)) data.

(** The callback of the command [toggle-non-ascii-highlight], before it
    saves and refreshes: [this.settings.enabled = !this.settings.enabled]. *)
Definition toggleCommand (p : Plugin) : Plugin :=
  {| app := app p;
     settings :=
       {| settings_enabled := negb (settings_enabled (settings p));
          allowedChars := allowedChars (settings p);
          customCSS := customCSS (settings p) |} |}.

(** ** Pushing settings to the open editors *)

(** The view plugin of an editor: active with the decorations it holds, or
    deactivated, which is what CodeMirror does with a plugin whose [update]
    has thrown. *)
Inductive PluginValue :=
| Active (decorations : DecorationSet)
| Deactivated.

(** An open editor: the view and its plugin instance. *)
Record EditorLeaf := {
  leafView : EditorView;
  leafPlugin : PluginValue
}.

(** The decorations the editor shows for the plugin: the ranges of all
    layers, none for a deactivated plugin. *)
Definition leafDecorations (l : EditorLeaf) : list Range :=
  match leafPlugin l with
  | Active d => concat d
  | Deactivated => Decoration_none
  end.

(** A workspace leaf: [Some] when [view.editor.cm] is an [EditorView]. *)
Definition Leaf : Type := option EditorLeaf.

(** [editorCm.dispatch({ effects })], by the contract of CodeMirror: the
    state field goes through [settingsField.update] with the effects of the
    transaction, document and viewport stay, and an active view plugin's
    [update] runs on the new view with that one transaction; when it
    throws, the plugin is deactivated, and a deactivated plugin is left
    alone. *)
Definition dispatch (effects : list Effect) (l : EditorLeaf) : EditorLeaf :=
  let v := leafView l in
  let v' := {| doc := doc v;
               visibleRanges := visibleRanges v;
               settingsField :=
                 settingsField_update (settingsField v) effects |} in
  {| leafView := v';
     leafPlugin :=
       match leafPlugin l with
       | Active d =>
           match plugin_update d
                   {| docChanged := false;
                      viewportChanged := false;
                      transactions := [map Own effects];
                      view := v' |} with
           | Some d' => Active d'
           | None => Deactivated
           end
       | Deactivated => Deactivated
       end |}.

(** The first [iterateAllLeaves] of [refreshAllEditors]. *)
Definition refreshAllEditors (p : Plugin) (leaves : list Leaf) : list Leaf :=
  map (fmap (dispatch [toggleHighlight (settings_enabled (settings p));
                       updateAllowlist (allowedChars (settings p))]))
      leaves.

Definition dispatchFrontmatterUpdate (p : Plugin) (leaves : list Leaf)
    : list Leaf :=
  let disabled := isActiveFileDisabledByFrontmatter p in
  map (fmap (dispatch [updateFrontmatterDisabled disabled])) leaves.

(** ** The markup escape of the first reading view ([src/main.js]) *)

(** [str.replace(/c/g, by)] for a one-character pattern. *)
Definition replaceAll (c : N) (by_ : jsstring) (str : jsstring) : jsstring :=
  flat_map (fun u => if (u =? c)%N then by_ else [u]) str.

Definition AMP : N := 0x26%N.
Definition LT : N := 0x3C%N.
Definition GT : N := 0x3E%N.
Definition QUOT : N := 0x22%N.

Definition escapeHtml (str : jsstring) : jsstring :=
  replaceAll QUOT (JS.lit "&quot;")
    (replaceAll GT (JS.lit "&gt;")
       (replaceAll LT (JS.lit "&lt;")
          (replaceAll AMP (JS.lit "&amp;") str))).

(** ** Vocabulary for the further properties *)

(** No two neighbouring code points are both flagged. *)
Fixpoint noAdjacentFlagged (allowed : gset jsstring) (chs : list jsstring)
    : bool :=
  match chs with
  | ch :: rest =>
      match rest with
      | ch' :: _ =>
          negb (isFlagged allowed ch && isFlagged allowed ch')
          && noAdjacentFlagged allowed rest
      | [] => true
      end
  | [] => true
  end.

Definition countFlagged (allowed : gset jsstring) (chs : list jsstring)
    : nat :=
  length (List.filter (isFlagged allowed) chs).

(** The two strings can be joined without a trailing lead surrogate of the
    first pairing up with a leading trail surrogate of the second. *)
Definition joinsCleanly (a b : jsstring) : Prop :=
  match last a, head b with
  | Some u, Some v => isPair u v = false
  | _, _ => True
  end.

(** The value of the last effect of each kind, if any. *)
Definition toggleValue (e : Effect) : option bool :=
  match e with toggleHighlight v => Some v | _ => None end.

Definition allowlistValue (e : Effect) : option jsstring :=
  match e with updateAllowlist v => Some v | _ => None end.

Definition frontmatterValueOf (e : Effect) : option bool :=
  match e with updateFrontmatterDisabled v => Some v | _ => None end.

(** The one reverse reading of an escaped string that matters: an entity is
    read back as the character it stands for. *)
Fixpoint unescapeHtml (fuel : nat) (s : jsstring) : jsstring :=
  match fuel with
  | 0 => s
  | S fuel' =>
      match s with
      | [] => []
      | u :: rest =>
          if (u =? AMP)%N then
            if bool_decide (take 4 rest = JS.lit "amp;")
            then AMP :: unescapeHtml fuel' (drop 4 rest)
            else if bool_decide (take 3 rest = JS.lit "lt;")
            then LT :: unescapeHtml fuel' (drop 3 rest)
            else if bool_decide (take 3 rest = JS.lit "gt;")
            then GT :: unescapeHtml fuel' (drop 3 rest)
            else if bool_decide (take 5 rest = JS.lit "quot;")
            then QUOT :: unescapeHtml fuel' (drop 5 rest)
            else u :: unescapeHtml fuel' rest
          else u :: unescapeHtml fuel' rest
      end
  end.

(** What [escapeHtml] makes of one code unit. *)
Definition escapeChar (u : N) : jsstring :=
  if (u =? AMP)%N then JS.lit "&amp;"
  else if (u =? LT)%N then JS.lit "&lt;"
  else if (u =? GT)%N then JS.lit "&gt;"
  else if (u =? QUOT)%N then JS.lit "&quot;"
  else [u].

Definition isSurrogate (u : N) : bool :=
  JS.isLeadingSurrogate u || JS.isTrailingSurrogate u.

(** The range set of an ordered list of runs: one layer, or none. *)
Definition layersOf (runs : list Range) : DecorationSet :=
  match runs with
  | [] => []
  | _ :: _ => [runs]
  end.

(** * Properties *)

(** ** Code points of a string *)

Section CodePoints.

(** Induction along the two-step recursion of [Array.from]. *)
Lemma Array_from_ind (P : jsstring -> Prop) :
  P [] ->
  (forall u, P [u]) ->
  (forall u v rest, isPair u v = true -> P rest -> P (u :: v :: rest)) ->
  (forall u v rest, isPair u v = false -> P (v :: rest) -> P (u :: v :: rest)) ->
  forall s, P s.
Proof.
  intros Hnil Hone Hpair Hunit s.
  assert (H : P s /\ forall u, P (u :: s)); [|apply H].
  induction s as [|v rest [IH1 IH2]]; [split; auto|].
  split; [apply IH2|].
  intros u. destruct (isPair u v) eqn:E; [apply Hpair | apply Hunit]; auto.
Qed.

Lemma Array_from_pair_eq u v rest :
  isPair u v = true ->
  JS.Array_from (u :: v :: rest) = [u; v] :: JS.Array_from rest.
Proof. unfold isPair. intros H. simpl. now rewrite H. Qed.

Lemma Array_from_unit_eq u v rest :
  isPair u v = false ->
  JS.Array_from (u :: v :: rest) = [u] :: JS.Array_from (v :: rest).
Proof. unfold isPair. intros H. cbn [JS.Array_from]. now rewrite H. Qed.

Lemma concat_Array_from s : concat (JS.Array_from s) = s.
Proof.
  induction s as [| u | u v rest E IH | u v rest E IH] using Array_from_ind;
    [reflexivity | reflexivity | |].
  - rewrite Array_from_pair_eq by assumption. simpl. now rewrite IH.
  - rewrite Array_from_unit_eq by assumption.
    change (concat ([u] :: ?l)) with (u :: concat l). now rewrite IH.
Qed.

Lemma Array_from_CodePointString s :
  Forall CodePointString (JS.Array_from s).
Proof.
  induction s as [| u | u v rest E IH | u v rest E IH] using Array_from_ind.
  - constructor.
  - repeat constructor.
  - rewrite Array_from_pair_eq by assumption. constructor; [|assumption].
    unfold isPair in E. apply andb_true_iff in E as [? ?]. now constructor.
  - rewrite Array_from_unit_eq by assumption. constructor; [constructor|assumption].
Qed.

Lemma leading_not_trailing u :
  JS.isLeadingSurrogate u = true -> JS.isTrailingSurrogate u = false.
Proof.
  unfold JS.isLeadingSurrogate, JS.isTrailingSurrogate.
  rewrite andb_true_iff, !N.leb_le. intros [_ H].
  apply andb_false_iff. left. apply N.leb_gt. lia.
Qed.

(** A well-formed pair is one element wherever it stands in the string. *)
Lemma Array_from_app_pair pre lead trail post :
  JS.isLeadingSurrogate lead = true ->
  JS.isTrailingSurrogate trail = true ->
  JS.Array_from (pre ++ lead :: trail :: post)
  = JS.Array_from pre ++ [lead; trail] :: JS.Array_from post.
Proof.
  intros Hl Ht.
  assert (Hp : isPair lead trail = true) by (unfold isPair; now rewrite Hl, Ht).
  induction pre as [| u | u v rest E IH | u v rest E IH] using Array_from_ind.
  - now apply Array_from_pair_eq.
  - change ([u] ++ ?l) with (u :: l). rewrite Array_from_unit_eq.
    + now rewrite Array_from_pair_eq.
    + unfold isPair. rewrite (leading_not_trailing lead Hl). apply andb_false_r.
  - change ((u :: v :: rest) ++ ?l) with (u :: v :: (rest ++ l)).
    rewrite !Array_from_pair_eq by assumption. now rewrite IH.
  - change ((u :: v :: rest) ++ ?l) with (u :: (v :: rest) ++ l).
    change ((v :: rest) ++ ?l) with (v :: (rest ++ l)) at 1.
    rewrite !Array_from_unit_eq by assumption.
    change (v :: rest ++ ?l) with ((v :: rest) ++ l). now rewrite IH.
Qed.

End CodePoints.

(** ** The allowlist *)

Section Allowlist.

Lemma surrogate_not_whitespace u :
  (0xD800 <= u)%N -> (u <= 0xDFFF)%N -> JS.isWhiteSpace u = false.
Proof.
  intros Hlo Hhi. unfold JS.isWhiteSpace.
  repeat (apply orb_false_intro);
    try (apply N.eqb_neq; lia).
  apply andb_false_iff. right. apply N.leb_gt. lia.
Qed.

Lemma trim_unit u : JS.trim [u] = [] <-> JS.isWhiteSpace u = true.
Proof.
  unfold JS.trim, JS.trimEnd. simpl.
  destruct (JS.isWhiteSpace u) eqn:E; simpl; [easy|].
  rewrite E. simpl. split; discriminate.
Qed.

Lemma trim_pair lead trail :
  JS.isLeadingSurrogate lead = true ->
  JS.isTrailingSurrogate trail = true ->
  JS.trim [lead; trail] = [lead; trail].
Proof.
  unfold JS.isLeadingSurrogate, JS.isTrailingSurrogate.
  rewrite !andb_true_iff, !N.leb_le. intros [? ?] [? ?].
  unfold JS.trim, JS.trimEnd. simpl.
  rewrite (surrogate_not_whitespace lead) by lia. simpl.
  now rewrite (surrogate_not_whitespace trail) by lia.
Qed.

Lemma allowedStep_elem set a ch :
  ch ∈ allowedStep set a <-> ch ∈ set \/ (ch = a /\ kept a).
Proof.
  unfold allowedStep, kept, Set_add, JS.strEq.
  repeat case_bool_decide; simpl; set_solver.
Qed.

Lemma fold_allowedStep_elem l set ch :
  ch ∈ fold_left allowedStep l set <-> ch ∈ set \/ (ch ∈ l /\ kept ch).
Proof.
  revert set. induction l as [|a l IH]; intros set; simpl.
  - set_solver.
  - rewrite IH, allowedStep_elem, elem_of_cons. naive_solver.
Qed.

Lemma buildAllowedSet_elem raw ch :
  ch ∈ buildAllowedSet raw <-> ch ∈ JS.Array_from raw /\ kept ch.
Proof.
  unfold buildAllowedSet. rewrite fold_allowedStep_elem. set_solver.
Qed.

End Allowlist.

(** C6. [buildAllowedSet] walks the configuration string by code point: its
    members are exactly the elements of [Array.from(raw)] that [trim] does
    not empty, together with U+00A0 when it occurs (although [trim] treats
    it as whitespace); every member is one whole code point, a well-formed
    surrogate pair enters as one two-unit member, the result holds no
    duplicate and the empty string gives the empty set. *)
Theorem buildAllowedSet_spec (raw : jsstring) :
  (forall ch, ch ∈ buildAllowedSet raw <->
              ch ∈ JS.Array_from raw /\ (JS.trim ch <> [] \/ ch = NBSP))
  /\ (forall ch, ch ∈ buildAllowedSet raw -> CodePointString ch)
  /\ (forall pre lead trail post,
        raw = pre ++ lead :: trail :: post ->
        JS.isLeadingSurrogate lead = true ->
        JS.isTrailingSurrogate trail = true ->
        [lead; trail] ∈ buildAllowedSet raw
        /\ JS.Array_from raw
           = JS.Array_from pre ++ [lead; trail] :: JS.Array_from post)
  /\ (forall u, JS.trim [u] = [] <-> JS.isWhiteSpace u = true)
  /\ JS.isWhiteSpace 0x00A0 = true
  /\ NoDup (elements (buildAllowedSet raw))
  /\ buildAllowedSet [] = ∅.
Proof.
  split; [|split; [|split; [|split; [|split; [|split]]]]].
  - intros ch. apply buildAllowedSet_elem.
  - intros ch [Hin _]%buildAllowedSet_elem.
    pose proof (Array_from_CodePointString raw) as HF.
    rewrite Forall_forall in HF. now apply HF.
  - intros pre lead trail post -> Hl Ht.
    pose proof (Array_from_app_pair pre lead trail post Hl Ht) as E.
    split; [|exact E].
    apply buildAllowedSet_elem. split.
    + rewrite E. apply elem_of_app. right. apply elem_of_cons. now left.
    + left. now rewrite trim_pair.
  - apply trim_unit.
  - reflexivity.
  - apply NoDup_elements.
  - reflexivity.
Qed.

(** On ["é  😀"]: the space is dropped, the no-break space and the
    emoji (one member of two units) are kept. *)
Lemma buildAllowedSet_spec_witness :
  [0xD83D; 0xDE00]%N ∈ buildAllowedSet [0xE9; 0x20; 0xA0; 0xD83D; 0xDE00]%N
  /\ NBSP ∈ buildAllowedSet [0xE9; 0x20; 0xA0; 0xD83D; 0xDE00]%N
  /\ [0x20%N] ∉ buildAllowedSet [0xE9; 0x20; 0xA0; 0xD83D; 0xDE00]%N.
Proof.
  destruct (buildAllowedSet_spec [0xE9; 0x20; 0xA0; 0xD83D; 0xDE00]%N)
    as (Hmem & _ & Hpair & _).
  split; [|split].
  - apply (Hpair [0xE9; 0x20; 0xA0]%N 0xD83D%N 0xDE00%N []); reflexivity.
  - apply Hmem. split; [|now right].
    apply (bool_decide_unpack _). vm_compute. exact I.
  - intros [_ [H | H]]%Hmem; [now apply H | discriminate H].
Defined.

(** ** The reading view *)

Section ReadingView.

Variable allowed : gset jsstring.

Lemma length_zero_nil (s : jsstring) : (length s =? 0) = true -> s = [].
Proof. destruct s; [reflexivity | discriminate]. Qed.

Lemma flushBuffer_buffer st : buffer (flushBuffer st) = [].
Proof.
  unfold flushBuffer. destruct (length (buffer st) =? 0) eqn:E; [|reflexivity].
  now apply length_zero_nil.
Qed.

Lemma flushBuffer_inHighlight st :
  inHighlight (flushBuffer st) = inHighlight st.
Proof. unfold flushBuffer. now destruct (length (buffer st) =? 0). Qed.

Lemma flushBuffer_text st : stateText (flushBuffer st) = stateText st.
Proof.
  unfold flushBuffer, stateText.
  destruct (length (buffer st) =? 0); [reflexivity|]. simpl.
  rewrite map_app, concat_app.
  destruct (inHighlight st); simpl; now rewrite !app_nil_r.
Qed.

Lemma readStep_text st ch :
  stateText (readStep allowed st ch) = stateText st ++ ch.
Proof.
  unfold readStep.
  destruct (isFlagged allowed ch), (inHighlight st);
    unfold appendBuffer, setInHighlight, stateText; simpl;
    rewrite ?app_assoc; try reflexivity;
    fold (stateText (flushBuffer st)); now rewrite flushBuffer_text.
Qed.

Lemma fold_readStep_text chs st :
  stateText (fold_left (readStep allowed) chs st) = stateText st ++ concat chs.
Proof.
  revert st. induction chs as [|ch chs IH]; intros st; simpl.
  - now rewrite app_nil_r.
  - now rewrite IH, readStep_text, <- app_assoc.
Qed.

Lemma wrapNode_textContent content :
  textContent (wrapNode allowed content) = content.
Proof.
  unfold wrapNode.
  set (st := fold_left _ _ _).
  change (textContent (Element "span" None (wrapper (flushBuffer st))))
    with (concat (map textContent (wrapper (flushBuffer st)))).
  rewrite <- (app_nil_r (concat _)), <- (flushBuffer_buffer st).
  fold (stateText (flushBuffer st)).
  rewrite flushBuffer_text. unfold st.
  rewrite fold_readStep_text. apply concat_Array_from.
Qed.

(** Induction on the tree with the hypothesis for every child. *)
Lemma Node_tree_ind (P : Node -> Prop) :
  (forall data, P (Text data)) ->
  (forall tag cls children, Forall P children -> P (Element tag cls children)) ->
  forall n, P n.
Proof.
  intros HT HE. fix IH 1. intros [data | tag cls children]; [apply HT|].
  apply HE. induction children as [|c cs IHcs]; constructor;
    [apply IH | exact IHcs].
Qed.

Lemma replaceTextNodes_textContent n :
  textContent (replaceTextNodes allowed n) = textContent n.
Proof.
  induction n as [data | tag cls children IH] using Node_tree_ind.
  - simpl. destruct (hasNonAscii data); [apply wrapNode_textContent | reflexivity].
  - simpl. f_equal. rewrite map_map.
    induction IH as [|c cs Hc _ IHcs]; simpl; [reflexivity|].
    now rewrite Hc, IHcs.
Qed.

Lemma highlightNonAsciiInReading_textContent el :
  textContent (highlightNonAsciiInReading el allowed) = textContent el.
Proof.
  destruct el as [data | tag cls children]; [reflexivity|].
  change (highlightNonAsciiInReading (Element tag cls children) allowed)
    with (replaceTextNodes allowed (Element tag cls children)).
  apply replaceTextNodes_textContent.
Qed.

(** *** The reading view is the run detector of the specification *)

Lemma highlightBounds_app l1 l2 offset :
  highlightBounds (l1 ++ l2) offset
  = highlightBounds l1 offset
    ++ highlightBounds l2 (offset + length (concat (map textContent l1))).
Proof.
  revert offset. induction l1 as [|c l1 IH]; intros offset; simpl.
  - now rewrite Nat.add_0_r.
  - rewrite length_app, Nat.add_assoc.
    destruct c as [data | tag [cls|] children]; simpl; now rewrite IH.
Qed.

Lemma stateText_length st :
  length (stateText st) = wrapperLength st + length (buffer st).
Proof. unfold stateText, wrapperLength. apply length_app. Qed.

Lemma flushBuffer_wrapperLength st :
  wrapperLength (flushBuffer st) = length (stateText st).
Proof.
  rewrite <- (flushBuffer_text st), stateText_length, flushBuffer_buffer.
  simpl. lia.
Qed.

(** Flushing adds the run of the buffer when a highlight is open. *)
Lemma flushBuffer_bounds st :
  (inHighlight st = true -> buffer st <> []) ->
  highlightBounds (wrapper (flushBuffer st)) 0
  = highlightBounds (wrapper st) 0
    ++ (if inHighlight st then [(wrapperLength st, length (stateText st))]
        else []).
Proof.
  intros Hok. unfold flushBuffer.
  destruct (length (buffer st) =? 0) eqn:E.
  - apply length_zero_nil in E.
    destruct (inHighlight st); [now destruct Hok | now rewrite app_nil_r].
  - simpl. rewrite highlightBounds_app, stateText_length. simpl.
    fold (wrapperLength st).
    destruct (inHighlight st); simpl; [|reflexivity].
    now rewrite app_nil_r.
Qed.

Lemma appendBuffer_length ch st :
  length (stateText (appendBuffer ch st)) = length (stateText st) + length ch.
Proof.
  unfold appendBuffer, stateText. simpl. rewrite !length_app. lia.
Qed.

Lemma fold_readStep_spec chs st :
  (inHighlight st = true -> buffer st <> []) ->
  highlightBounds
    (wrapper (flushBuffer (fold_left (readStep allowed) chs st))) 0
  = highlightBounds (wrapper st) 0
    ++ specScan allowed chs (length (stateText st)) (openOf st).
Proof.
  revert st. induction chs as [|ch chs IH]; intros st Hok.
  - simpl. rewrite (flushBuffer_bounds st Hok). unfold openOf.
    now destruct (inHighlight st).
  - cbn [fold_left specScan]. unfold readStep at 2.
    pose proof (flushBuffer_bounds st Hok) as Hflush.
    pose proof (flushBuffer_wrapperLength st) as Hlen.
    pose proof (flushBuffer_text st) as Htext.
    destruct (isFlagged allowed ch) eqn:Ech, (inHighlight st) eqn:Ehl;
      rewrite IH; rewrite ?appendBuffer_length.
    + unfold openOf. simpl. now rewrite Ehl.
    + simpl. intros _ Hn. apply app_eq_nil in Hn as [Hb _]. now apply Hok.
    + unfold openOf. simpl. rewrite Ehl.
      change (stateText (setInHighlight true ?x)) with (stateText x).
      change (wrapperLength (appendBuffer ch (setInHighlight true ?x)))
        with (wrapperLength x).
      now rewrite Hlen, Hflush, app_nil_r, Htext.
    + simpl. intros _. rewrite flushBuffer_buffer. simpl. intros ->.
      discriminate Ech.
    + unfold openOf. simpl. rewrite Ehl.
      change (stateText (setInHighlight false ?x)) with (stateText x).
      now rewrite Hflush, <- app_assoc, Htext.
    + simpl. discriminate.
    + unfold openOf. simpl. now rewrite Ehl.
    + simpl. rewrite Ehl. discriminate.
Qed.

(** Whatever the text, the highlighted spans of the reading view are the
    runs the specification describes. *)
Lemma readingRuns_specRuns text :
  readingRuns allowed text = specRuns allowed text.
Proof.
  unfold readingRuns, specRuns, wrapNode. now rewrite fold_readStep_spec.
Qed.

End ReadingView.

(** ** The run detector of the specification meets its properties *)

Section SpecScan.

Variable allowed : gset jsstring.

Lemma Array_from_nonempty s :
  Forall (fun ch : jsstring => ch <> []) (JS.Array_from s).
Proof.
  pose proof (Array_from_CodePointString s) as H.
  induction H as [|ch chs Hch _ IH]; constructor; [|exact IH].
  destruct Hch; discriminate.
Qed.

Lemma forallb_Forall {A} (f : A -> bool) (l : list A) :
  Forall (fun x => f x = true) l -> forallb f l = true.
Proof.
  induction 1 as [|x l Hx _ IH]; simpl; [reflexivity|]. now rewrite Hx, IH.
Qed.

(** Where the runs start: with no run open they start at or after the
    current offset; with a run open the first one is the open run, it ends
    at or after the current offset and the others start at or after its
    end. *)
Lemma specScan_starts chs :
  (forall off, Forall (fun r => off <= r.1) (specScan allowed chs off None))
  /\ (forall off s, exists e more,
        specScan allowed chs off (Some s) = (s, e) :: more
        /\ off <= e /\ Forall (fun r => e <= r.1) more).
Proof.
  induction chs as [|ch rest [IHn IHs]]; split.
  - intros off. constructor.
  - intros off s. exists off, []. simpl. split; [reflexivity|].
    split; [lia | constructor].
  - intros off. simpl. destruct (isFlagged allowed ch).
    + destruct (IHs (off + length ch) off) as (e & more & -> & He & Hm).
      constructor; [simpl; lia|].
      eapply Forall_impl; [exact Hm|]. simpl. intros r Hr. lia.
    + eapply Forall_impl; [apply IHn|]. simpl. intros r Hr. lia.
  - intros off s. simpl. destruct (isFlagged allowed ch).
    + destruct (IHs (off + length ch) s) as (e & more & -> & He & Hm).
      exists e, more. split; [reflexivity|]. split; [lia | exact Hm].
    + exists off, (specScan allowed rest (off + length ch) None).
      split; [reflexivity|]. split; [lia|].
      eapply Forall_impl; [apply IHn|]. simpl. intros r Hr. lia.
Qed.

Lemma specScan_separated chs :
  Forall (fun ch : jsstring => ch <> []) chs ->
  forall off openRun, separated (specScan allowed chs off openRun) = true.
Proof.
  induction 1 as [|ch rest Hch _ IH]; intros off openRun.
  - simpl. now destruct openRun.
  - simpl. destruct (isFlagged allowed ch); [apply IH|].
    destruct openRun as [s|]; [|apply IH].
    pose proof (proj1 (specScan_starts rest) (off + length ch)) as Hs.
    pose proof (IH (off + length ch) None) as Hsep.
    destruct (specScan allowed rest (off + length ch) None) as [|r' more];
      [reflexivity|].
    change (separated ((s, off) :: r' :: more))
      with ((off <? r'.1) && separated (r' :: more)).
    rewrite Hsep, andb_true_r. apply Nat.ltb_lt.
    inversion Hs; subst. destruct ch; [contradiction|]. simpl in *. lia.
Qed.

Lemma runsHolding_cons r runs c :
  runsHolding (r :: runs) c
  = (if inside r c then 1 else 0) + runsHolding runs c.
Proof. unfold runsHolding. simpl. now destruct (inside r c). Qed.

Lemma runsHolding_later runs (c : nat * jsstring) :
  Forall (fun r : Range => c.1 < r.1) runs -> runsHolding runs c = 0.
Proof.
  induction 1 as [|r runs Hr _ IH]; [reflexivity|].
  rewrite runsHolding_cons, IH. unfold inside.
  assert ((r.1 <=? c.1) = false) as -> by (apply Nat.leb_gt; lia).
  reflexivity.
Qed.

Lemma codePointsFrom_ge chs off :
  Forall (fun c : nat * jsstring => off <= c.1) (codePointsFrom off chs).
Proof.
  revert off. induction chs as [|ch rest IH]; intros off; simpl;
    constructor; [simpl; lia|].
  eapply Forall_impl; [apply IH|]. simpl. intros c Hc. lia.
Qed.

Lemma codePointsFrom_nonempty chs off :
  Forall (fun ch : jsstring => ch <> []) chs ->
  Forall (fun c : nat * jsstring => c.2 <> []) (codePointsFrom off chs).
Proof.
  intros H. revert off.
  induction H as [|ch rest Hch _ IH]; intros off; simpl; constructor;
    [assumption | apply IH].
Qed.

Lemma specScan_coverage chs :
  Forall (fun ch : jsstring => ch <> []) chs ->
  forall off openRun,
    (forall s, openRun = Some s -> s <= off) ->
    Forall (fun c => runsHolding (specScan allowed chs off openRun) c
                     = if isFlagged allowed c.2 then 1 else 0)
           (codePointsFrom off chs).
Proof.
  induction 1 as [|ch rest Hch Hrs IH]; intros off openRun Hopen;
    [constructor|].
  assert (Hlen : 0 < length ch) by (destruct ch; [contradiction | simpl; lia]).
  assert (Hstart : default off openRun <= off)
    by (destruct openRun as [s|]; simpl; [now apply Hopen | lia]).
  pose proof (codePointsFrom_ge rest (off + length ch)) as Hge.
  pose proof (proj1 (specScan_starts rest) (off + length ch)) as Hnone.
  cbn [codePointsFrom specScan].
  destruct (isFlagged allowed ch) eqn:Ech.
  - constructor.
    + cbn [snd]. rewrite Ech.
      destruct (proj2 (specScan_starts rest) (off + length ch)
                      (default off openRun))
        as (e & more & -> & He & Hm).
      rewrite runsHolding_cons, runsHolding_later.
      * unfold inside. cbn [fst snd].
        assert ((default off openRun <=? off) = true) as ->
            by (apply Nat.leb_le; lia).
        assert ((off + length ch <=? e) = true) as ->
            by (apply Nat.leb_le; lia).
        reflexivity.
      * eapply Forall_impl; [exact Hm|]. cbn [fst]. intros r Hr. lia.
    + apply IH. intros s [= <-]. lia.
  - assert (Hrest :
      Forall (fun c => runsHolding
                         (specScan allowed rest (off + length ch) None) c
                       = if isFlagged allowed c.2 then 1 else 0)
             ((off, ch) :: codePointsFrom (off + length ch) rest)).
    { constructor; [|apply IH; discriminate].
      cbn [snd]. rewrite Ech. apply runsHolding_later.
      eapply Forall_impl; [exact Hnone|]. cbn [fst]. intros r Hr. lia. }
    destruct openRun as [s|]; [|exact Hrest].
    assert (Hall : Forall (fun c : nat * jsstring => off <= c.1)
                          ((off, ch) :: codePointsFrom (off + length ch) rest)).
    { constructor; [cbn [fst]; lia|].
      eapply Forall_impl; [exact Hge|]. cbn [fst]. intros c Hc. lia. }
    assert (Hne : Forall (fun c : nat * jsstring => c.2 <> [])
                         ((off, ch) :: codePointsFrom (off + length ch) rest)).
    { apply (codePointsFrom_nonempty (ch :: rest) off). now constructor. }
    rewrite Forall_forall in Hrest, Hall, Hne |- *.
    intros c Hc. rewrite runsHolding_cons, (Hrest c Hc).
    specialize (Hall c Hc). specialize (Hne c Hc).
    unfold inside. cbn [fst snd].
    assert ((c.1 + length c.2 <=? off) = false) as ->.
    { apply Nat.leb_gt. destruct (c.2); [contradiction | simpl; lia]. }
    now rewrite andb_false_r.
Qed.

(** The offsets a scan from [off] passes through. *)
Lemma specScan_bounds (L : list nat) chs :
  forall off openRun,
    off ∈ L ->
    Forall (fun c : nat * jsstring => c.1 + length c.2 ∈ L)
           (codePointsFrom off chs) ->
    (forall s, openRun = Some s -> s ∈ L) ->
    Forall (fun r : Range => r.1 ∈ L /\ r.2 ∈ L)
           (specScan allowed chs off openRun).
Proof.
  induction chs as [|ch rest IH]; intros off openRun Hoff Hcs Hopen.
  - simpl. destruct openRun as [s|]; constructor; [|constructor].
    split; [now apply Hopen | exact Hoff].
  - cbn [codePointsFrom] in Hcs. inversion Hcs as [|c cs Hc Hcs']; subst.
    cbn [fst snd] in Hc. cbn [specScan].
    destruct (isFlagged allowed ch).
    + apply IH; [exact Hc | exact Hcs'|].
      intros s [= <-]. destruct openRun as [s'|]; simpl; [now apply Hopen|].
      exact Hoff.
    + destruct openRun as [s|].
      * constructor; [split; [now apply Hopen | exact Hoff]|].
        apply IH; [exact Hc | exact Hcs' | discriminate].
      * apply IH; [exact Hc | exact Hcs' | discriminate].
Qed.

Lemma existsb_eqb_elem (k : nat) (l : list nat) :
  k ∈ l -> existsb (Nat.eqb k) l = true.
Proof.
  induction 1 as [k l | k x l _ IH]; simpl.
  - now rewrite Nat.eqb_refl.
  - rewrite IH. apply orb_true_r.
Qed.

(** The three properties, for the detector of the specification. *)
Lemma specRuns_separated text : separated (specRuns allowed text) = true.
Proof. apply specScan_separated, Array_from_nonempty. Qed.

Lemma specRuns_coverage text :
  coverageComplete allowed text (specRuns allowed text) = true.
Proof.
  unfold coverageComplete, codePoints, specRuns. apply forallb_Forall.
  eapply Forall_impl;
    [apply (specScan_coverage _ (Array_from_nonempty text) 0 None);
     discriminate|].
  cbv beta. intros c ->. apply Nat.eqb_refl.
Qed.

Lemma specRuns_boundarySafe text :
  boundarySafe text (specRuns allowed text) = true.
Proof.
  unfold boundarySafe, specRuns. apply forallb_Forall.
  eapply Forall_impl;
    [apply (specScan_bounds (boundaries text) (JS.Array_from text) 0 None)|].
  - unfold boundaries. apply elem_of_cons. now left.
  - unfold boundaries, codePoints. rewrite Forall_forall. intros c Hc.
    apply elem_of_cons. right.
    apply (list_elem_of_fmap_2 (fun c : nat * jsstring => c.1 + length c.2)).
    exact Hc.
  - discriminate.
  - cbv beta. intros r [H1 H2]. unfold onBoundary.
    now rewrite !existsb_eqb_elem.
Qed.

End SpecScan.

(** The reading view, being that detector, meets them on every text. *)
Lemma readingRuns_properties (allowed : gset jsstring) (text : jsstring) :
  coverageComplete allowed text (readingRuns allowed text) = true
  /\ separated (readingRuns allowed text) = true
  /\ boundarySafe text (readingRuns allowed text) = true.
Proof.
  rewrite readingRuns_specRuns.
  split; [apply specRuns_coverage|].
  split; [apply specRuns_separated | apply specRuns_boundarySafe].
Qed.

(** ** Suppression *)

Lemma isDisablingValue_iff value :
  isDisablingValue value = true
  <-> value = JBoolean false \/ value = JString (JS.lit "false").
Proof.
  destruct value as [| | [|] | z | s | ref]; simpl;
    try (split; [discriminate | intros [H | H]; discriminate H]).
  - split; [now left | reflexivity].
  - unfold JS.strEq. rewrite bool_decide_eq_true. split.
    + intros ->. now right.
    + intros [H | H]; [discriminate H | now inversion H].
Qed.

Lemma frontmatterValue_present (a : App) file value :
  value <> JUndefined ->
  frontmatterValue a file = value <->
  exists cache fm,
    getFileCache a file = Some cache /\ frontmatter cache = Some fm
    /\ fm !! FRONTMATTER_KEY = Some value.
Proof.
  intros Hv. unfold frontmatterValue. split.
  - destruct (getFileCache a file) as [cache|]; [|congruence].
    destruct (frontmatter cache) as [fm|] eqn:Efm; [|congruence].
    destruct (fm !! FRONTMATTER_KEY) as [v|] eqn:Ev; simpl; [|congruence].
    intros ->. now exists cache, fm.
  - intros (cache & fm & -> & -> & ->). reflexivity.
Qed.

(** C5. The frontmatter value disables highlighting exactly when it is the
    boolean [false] or the string ["false"], so a file is disabled exactly
    when its cached frontmatter holds the key with one of these two values;
    both surfaces then work iff the global flag is set and the document is
    not disabled. *)
Theorem suppression_policy (p : Plugin) (file : TFile) (view : EditorView)
    (el : Node) (sourcePath : jsstring) :
  (forall value,
     isDisablingValue value = true
     <-> value = JBoolean false \/ value = JString (JS.lit "false"))
  /\ (isFileDisabledByFrontmatter p file = true
      <-> exists cache fm value,
            getFileCache (app p) file = Some cache
            /\ frontmatter cache = Some fm
            /\ fm !! FRONTMATTER_KEY = Some value
            /\ (value = JBoolean false \/ value = JString (JS.lit "false")))
  /\ buildDecorations view
     = (if enabled (settingsField view)
           && negb (frontmatterDisabled (settingsField view))
        then fold_left (scanRange (allowedSet (settingsField view)) (doc view))
                       (visibleRanges view) []
        else Decoration_none)
  /\ (sourcePath <> [] ->
      getAbstractFileByPath (app p) sourcePath = Some (AFile file) ->
      postProcessor p el sourcePath
      = if settings_enabled (settings p)
           && negb (isFileDisabledByFrontmatter p file)
        then highlightNonAsciiInReading el
               (buildAllowedSet (allowedChars (settings p)))
        else el).
Proof.
  split; [exact isDisablingValue_iff|]. split; [|split].
  - unfold isFileDisabledByFrontmatter. rewrite isDisablingValue_iff. split.
    + intros H.
      assert (Hv : frontmatterValue (app p) file <> JUndefined)
        by (destruct H as [H | H]; rewrite H; discriminate).
      destruct (proj1 (frontmatterValue_present (app p) file _ Hv) eq_refl)
        as (cache & fm & Hc & Hf & Hk).
      exists cache, fm, (frontmatterValue (app p) file). auto.
    + intros (cache & fm & value & Hc & Hf & Hk & Hv).
      assert (frontmatterValue (app p) file = value) as ->; [|exact Hv].
      unfold frontmatterValue. now rewrite Hc, Hf, Hk.
  - unfold buildDecorations.
    now destruct (enabled (settingsField view)),
                 (frontmatterDisabled (settingsField view)).
  - intros Hsrc Hfile. unfold postProcessor. rewrite Hfile.
    destruct sourcePath as [|u rest]; [contradiction|]. simpl.
    now destruct (settings_enabled (settings p)),
                 (isFileDisabledByFrontmatter p file).
Qed.

(** The note says [highlight-non-ascii: "false"] and the global flag is on:
    the note is disabled and the post processor leaves the element alone. *)
Lemma suppression_policy_witness :
  isFileDisabledByFrontmatter (samplePlugin true (JString (JS.lit "false")))
                              sampleFile = true
  /\ postProcessor (samplePlugin true (JString (JS.lit "false")))
                   sampleElement (JS.lit "note.md") = sampleElement.
Proof.
  destruct (suppression_policy
              (samplePlugin true (JString (JS.lit "false"))) sampleFile
              (sampleView (samplePlugin true (JString (JS.lit "false")))
                          [] [])
              sampleElement (JS.lit "note.md"))
    as (_ & Hdis & _ & Hpost).
  split.
  - apply Hdis.
    exists {| frontmatter :=
                Some {[ FRONTMATTER_KEY := JString (JS.lit "false") ]} |},
           {[ FRONTMATTER_KEY := JString (JS.lit "false") ]},
           (JString (JS.lit "false")).
    split; [reflexivity|]. split; [reflexivity|].
    split; [vm_compute; reflexivity | now right].
  - rewrite Hpost; [vm_compute; reflexivity | discriminate | reflexivity].
Defined.

(** ** The edit-mode scan *)

Section EditMode.

Variable allowed : gset jsstring.

Lemma isFlagged_nonempty ch : isFlagged allowed ch = true -> 0 < length ch.
Proof. destruct ch; [discriminate | simpl; lia]. Qed.

Lemma peekAhead_ge remaining runEnd :
  runEnd <= peekAhead allowed remaining runEnd.
Proof.
  revert runEnd. induction remaining as [|ch rest IH]; intros runEnd; simpl.
  - lia.
  - destruct (isFlagged allowed ch); [|lia].
    specialize (IH (runEnd + length ch)). lia.
Qed.

Lemma peekAhead_shift k remaining runEnd :
  peekAhead allowed remaining (k + runEnd)
  = k + peekAhead allowed remaining runEnd.
Proof.
  revert runEnd. induction remaining as [|ch rest IH]; intros runEnd; simpl.
  - reflexivity.
  - destruct (isFlagged allowed ch); [|reflexivity].
    now rewrite <- IH, Nat.add_assoc.
Qed.

Lemma scanStep_prepend text b st ch :
  scanStep allowed text (prependBuilder b st) ch
  = prependBuilder b (scanStep allowed text st ch).
Proof.
  unfold scanStep, prependBuilder. simpl.
  destruct (isFlagged allowed ch); simpl; [|reflexivity].
  now rewrite app_assoc.
Qed.

Lemma fold_scanStep_prepend text b chs st :
  fold_left (scanStep allowed text) chs (prependBuilder b st)
  = prependBuilder b (fold_left (scanStep allowed text) chs st).
Proof.
  revert st. induction chs as [|ch chs IH]; intros st; simpl; [reflexivity|].
  now rewrite scanStep_prepend, IH.
Qed.

Lemma scanStep_shift text k st ch :
  scanStep allowed text (shiftState k st) ch
  = shiftState k (scanStep allowed text st ch).
Proof.
  unfold scanStep, shiftState. simpl.
  destruct (isFlagged allowed ch); simpl.
  - rewrite <- Nat.add_assoc, peekAhead_shift, map_app. simpl.
    unfold shiftRange at 2. simpl.
    f_equal. f_equal.
    pose proof (peekAhead_ge
                  (JS.Array_from (JS.slice text (idx st + length ch)))
                  (pos st + length ch)).
    lia.
  - f_equal. lia.
Qed.

Lemma fold_scanStep_shift text k chs st :
  fold_left (scanStep allowed text) chs (shiftState k st)
  = shiftState k (fold_left (scanStep allowed text) chs st).
Proof.
  revert st. induction chs as [|ch chs IH]; intros st; simpl; [reflexivity|].
  now rewrite scanStep_shift, IH.
Qed.

Lemma sliceString_whole (text : jsstring) :
  sliceString text 0 (length text) = text.
Proof.
  unfold sliceString. rewrite Nat.sub_0_r, drop_0. apply firstn_all.
Qed.

(** The builder is only appended to. *)
Lemma scanRange_prepend d b r :
  scanRange allowed d b r = b ++ scanRange allowed d [] r.
Proof.
  unfold scanRange.
  set (text := sliceString d r.1 r.2).
  set (chs := JS.Array_from text).
  change (b ++ builder ?s) with (builder (prependBuilder b s)).
  rewrite <- fold_scanStep_prepend.
  unfold prependBuilder. simpl. now rewrite app_nil_r.
Qed.

Lemma scanText_unfold text :
  scanText allowed text
  = builder (fold_left (scanStep allowed text) (JS.Array_from text)
                       {| idx := 0; pos := 0; builder := [] |}).
Proof.
  unfold scanText, buildDecorations, scanRange. simpl.
  now rewrite sliceString_whole.
Qed.

(** The runs of a visible range are those of its text, moved by [from]. *)
Lemma scanRange_shift d r :
  scanRange allowed d [] r
  = map (shiftRange r.1) (scanText allowed (sliceString d r.1 r.2)).
Proof.
  rewrite scanText_unfold. unfold scanRange.
  set (text := sliceString d r.1 r.2).
  change (map (shiftRange r.1) (builder ?s))
    with (builder (shiftState r.1 s)).
  rewrite <- fold_scanStep_shift. unfold shiftState. simpl.
  now rewrite Nat.add_0_r.
Qed.

Lemma fold_scanRange d ranges b :
  fold_left (scanRange allowed d) ranges b
  = b ++ concat (map (scanRange allowed d []) ranges).
Proof.
  revert b. induction ranges as [|r ranges IH]; intros b; simpl.
  - now rewrite app_nil_r.
  - rewrite IH, (scanRange_prepend d b r). now rewrite <- app_assoc.
Qed.

Lemma fold_scanStep_builder text chs st :
  builder (fold_left (scanStep allowed text) chs st)
  = builder st
    ++ builder (fold_left (scanStep allowed text) chs
                          {| idx := idx st; pos := pos st; builder := [] |}).
Proof.
  change (builder st ++ builder ?s)
    with (builder (prependBuilder (builder st) s)).
  rewrite <- fold_scanStep_prepend. unfold prependBuilder. simpl.
  rewrite app_nil_r. now destruct st.
Qed.

Lemma separated_touching (a b c : nat) (more : list Range) :
  separated ((a, b) :: (b, c) :: more) = false.
Proof.
  change (separated ((a, b) :: (b, c) :: more))
    with ((b <? b) && separated ((b, c) :: more)).
  now rewrite Nat.ltb_irrefl.
Qed.

Lemma scanStep_flagged text st ch :
  isFlagged allowed ch = true ->
  builder (scanStep allowed text st ch)
  = builder st ++ [(pos st, pos (scanStep allowed text st ch))].
Proof. intros H. unfold scanStep. now rewrite H. Qed.

(** The defect in general: when a text begins with two flagged code points
    the scan adds a run for the first, then a second run that starts where
    the first one ends. *)
Lemma scanText_two_flagged text c1 c2 rest :
  JS.Array_from text = c1 :: c2 :: rest ->
  isFlagged allowed c1 = true ->
  isFlagged allowed c2 = true ->
  exists e1 e2 more,
    scanText allowed text = (0, e1) :: (e1, e2) :: more
    /\ separated (scanText allowed text) = false.
Proof.
  intros Hchs H1 H2. rewrite scanText_unfold, Hchs.
  cbn [fold_left]. rewrite fold_scanStep_builder.
  rewrite (scanStep_flagged text _ c2 H2), (scanStep_flagged text _ c1 H1).
  cbn [builder pos app].
  eexists _, _, _. split; [reflexivity|].
  apply separated_touching.
Qed.

Lemma runsBetween_weaken lo runs hi hi' :
  runsBetween lo runs hi -> hi <= hi' -> runsBetween lo runs hi'.
Proof.
  revert lo. induction runs as [|r rest IH]; intros lo; simpl; [lia|].
  intros (? & ? & ?) ?. repeat split; auto.
Qed.

Lemma runsBetween_snoc lo runs hi r :
  runsBetween lo runs hi -> hi <= r.1 -> r.1 < r.2 ->
  runsBetween lo (runs ++ [r]) r.2.
Proof.
  revert lo. induction runs as [|r' rest IH]; intros lo; simpl.
  - intros. repeat split; lia.
  - intros (? & ? & ?) ? ?. repeat split; auto.
Qed.

Lemma scanStep_ordered text lo st ch :
  runsBetween lo (builder st) (pos st) ->
  runsBetween lo (builder (scanStep allowed text st ch))
              (pos (scanStep allowed text st ch)).
Proof.
  intros H. unfold scanStep.
  destruct (isFlagged allowed ch) eqn:E; simpl.
  - pose proof (isFlagged_nonempty ch E).
    pose proof (peekAhead_ge
                  (JS.Array_from (JS.slice text (idx st + length ch)))
                  (pos st + length ch)).
    apply (runsBetween_snoc lo (builder st) (pos st) (pos st, _));
      simpl; [assumption | lia | lia].
  - eapply runsBetween_weaken; [eassumption | lia].
Qed.

Lemma fold_scanStep_ordered text lo chs st :
  runsBetween lo (builder st) (pos st) ->
  runsBetween lo (builder (fold_left (scanStep allowed text) chs st))
              (pos (fold_left (scanStep allowed text) chs st)).
Proof.
  revert st. induction chs as [|ch chs IH]; intros st H; simpl; [assumption|].
  apply IH. now apply scanStep_ordered.
Qed.

(** Whatever the text, the runs of one scan come out in ascending order,
    never overlap and are never empty. *)
Lemma scanText_ordered text :
  exists hi, runsBetween 0 (scanText allowed text) hi.
Proof.
  rewrite scanText_unfold. eexists.
  apply fold_scanStep_ordered. simpl. lia.
Qed.

End EditMode.

Lemma buildDecorations_concat (v : EditorView) :
  enabled (settingsField v) = true ->
  frontmatterDisabled (settingsField v) = false ->
  buildDecorations v
  = concat (map (fun r => map (shiftRange r.1)
                            (scanText (allowedSet (settingsField v))
                                      (sliceString (doc v) r.1 r.2)))
                (visibleRanges v)).
Proof.
  intros He Hf. unfold buildDecorations. rewrite He, Hf. simpl.
  rewrite fold_scanRange. simpl. f_equal.
  apply map_ext. intros r. apply scanRange_shift.
Qed.

(** C7. When highlighting is off for a document, the edit-mode decoration
    set is [Decoration.none] and the post processor hands the rendered
    element back untouched, whatever the text and the allowlist: in the
    editor when the field has [enabled] false or [frontmatterDisabled] true
    (also as the field is first created from the plugin), in the reading view
    when the setting is off or the source file is disabled by its
    frontmatter. *)
Theorem suppression_fast_path (p : Plugin) (v : EditorView) (el : Node)
    (sourcePath : jsstring) (file : TFile) :
  (enabled (settingsField v) = false
   \/ frontmatterDisabled (settingsField v) = true ->
   buildDecorations v = Decoration_none)
  /\ (settingsField v = settingsField_create p ->
      settings_enabled (settings p) = false
      \/ isActiveFileDisabledByFrontmatter p = true ->
      buildDecorations v = Decoration_none)
  /\ (settings_enabled (settings p) = false ->
      postProcessor p el sourcePath = el)
  /\ (sourcePath <> [] ->
      getAbstractFileByPath (app p) sourcePath = Some (AFile file) ->
      isFileDisabledByFrontmatter p file = true ->
      postProcessor p el sourcePath = el).
Proof.
  assert (Hedit : forall f,
            enabled f = false \/ frontmatterDisabled f = true ->
            negb (enabled f) || frontmatterDisabled f = true).
  { intros f [-> | ->]; [reflexivity | apply orb_true_r]. }
  split; [|split; [|split]].
  - intros H. unfold buildDecorations. now rewrite (Hedit _ H).
  - intros Hf H. unfold buildDecorations. rewrite Hf.
    now rewrite (Hedit (settingsField_create p) H).
  - intros H. unfold postProcessor. now rewrite H.
  - intros Hsrc Hfile Hdis. unfold postProcessor. rewrite Hfile, Hdis.
    destruct sourcePath; [contradiction|]. simpl.
    now destruct (settings_enabled (settings p)).
Qed.

(** The note says [highlight-non-ascii: false]: the editor field created
    from the plugin is suppressed and so is the reading view. *)
Lemma suppression_fast_path_witness :
  buildDecorations
    (sampleView (samplePlugin true (JBoolean false))
                [e_acute; e_acute] [(0, 2)]) = Decoration_none
  /\ postProcessor (samplePlugin true (JBoolean false))
                   sampleElement (JS.lit "note.md") = sampleElement.
Proof.
  destruct (suppression_fast_path
              (samplePlugin true (JBoolean false))
              (sampleView (samplePlugin true (JBoolean false))
                          [e_acute; e_acute] [(0, 2)])
              sampleElement (JS.lit "note.md") sampleFile)
    as (_ & Hedit & _ & Hread).
  split.
  - apply Hedit; [reflexivity | right; vm_compute; reflexivity].
  - apply Hread; [discriminate | reflexivity | vm_compute; reflexivity].
Defined.

(** *** What the builder makes of the calls *)

Lemma last_snoc_range (layer : list Range) (r : Range) :
  last (layer ++ [r]) = Some r.
Proof. apply last_snoc. Qed.

Lemma RangeSetBuilder_add_after (layer : list Range)
    (nextLayer : DecorationSet) (r : Range) :
  match last layer with
  | Some lst => lst.2 <= r.1
  | None => True
  end ->
  RangeSetBuilder_add (layer :: nextLayer) r
  = Some ((layer ++ [r]) :: nextLayer).
Proof.
  intros H. cbn [RangeSetBuilder_add].
  destruct (last layer) as [lst|]; [|reflexivity].
  assert ((r.1 <? lst.2) = false) as -> by (apply Nat.ltb_ge; lia).
  reflexivity.
Qed.

(** Calls in ascending order that start at or after the end of the layer's
    last range all land in that layer. *)
Lemma RangeSetBuilder_addAll_ordered runs :
  forall lo hi (layer : list Range),
    runsBetween lo runs hi ->
    match last layer with
    | Some lst => lst.2 <= lo
    | None => True
    end ->
    RangeSetBuilder_addAll [layer] runs = Some [layer ++ runs].
Proof.
  induction runs as [|r rest IH]; intros lo hi layer Hruns Hlast.
  - simpl. now rewrite app_nil_r.
  - destruct Hruns as (Hlo & Hne & Hrest).
    cbn [RangeSetBuilder_addAll].
    rewrite (RangeSetBuilder_add_after layer [] r)
      by (destruct (last layer); [lia | exact I]).
    rewrite (IH r.2 hi (layer ++ [r]) Hrest).
    + now rewrite <- app_assoc.
    + rewrite last_snoc_range. lia.
Qed.

Lemma RangeSetBuilder_addAll_runs lo runs hi :
  runsBetween lo runs hi ->
  RangeSetBuilder_addAll [] runs = Some (layersOf runs).
Proof.
  destruct runs as [|r rest]; [reflexivity|].
  intros (_ & _ & Hrest). cbn [RangeSetBuilder_addAll RangeSetBuilder_add].
  rewrite (RangeSetBuilder_addAll_ordered rest r.2 hi [r] Hrest);
    [reflexivity | simpl; lia].
Qed.

(** With at most one visible range no call of [builder.add] throws. *)
Lemma buildDecorationsResult_single (v : EditorView) :
  length (visibleRanges v) <= 1 ->
  buildDecorationsResult v = Some (layersOf (buildDecorations v)).
Proof.
  intros Hlen. unfold buildDecorationsResult.
  assert (H : exists lo hi, runsBetween lo (buildDecorations v) hi).
  { unfold buildDecorations.
    destruct (negb (enabled (settingsField v))
              || frontmatterDisabled (settingsField v));
      [exists 0, 0; simpl; lia|].
    destruct (visibleRanges v) as [|r [|r' rs]];
      [exists 0, 0; simpl; lia | | simpl in Hlen; lia].
    cbn [fold_left]. exists r.1. eexists. unfold scanRange.
    apply fold_scanStep_ordered. simpl. lia. }
  destruct H as (lo & hi & H). now apply RangeSetBuilder_addAll_runs in H.
Qed.

(** With two visible ranges the drift of the first can put a call of the
    second out of order: on ["éééé"], one more unit and ["é"], shown as the
    ranges [[0,4)] and [[5,6)], the calls are [(0,4)], [(4,5)], [(5,6)],
    [(6,7)] and then [(5,6)], on which the builder throws. *)
Lemma buildDecorationsResult_can_throw :
  let v := sampleView (samplePlugin true JUndefined)
                      [e_acute; e_acute; e_acute; e_acute; letter_a; e_acute]
                      [(0, 4); (5, 6)] in
  buildDecorations v = [(0, 4); (4, 5); (5, 6); (6, 7); (5, 6)]
  /\ buildDecorationsResult v = None.
Proof. split; vm_compute; reflexivity. Qed.

(** C9. The edit-mode scan is a function of its inputs alone: two editor
    views with the same settings field and the same visible ranges whose
    visible texts agree get the same result (the same range set, or both
    the exception of the builder), wherever else their documents differ;
    the result of a view is what the builder makes of the scans of its
    visible texts, each moved to its range; with at most one visible range
    the method always returns, with the runs of its scan; and a rebuild in
    [update] does not depend on the decorations held before. *)
Theorem scan_deterministic :
  (forall v1 v2 : EditorView,
     settingsField v1 = settingsField v2 ->
     visibleRanges v1 = visibleRanges v2 ->
     Forall (fun r => sliceString (doc v1) r.1 r.2
                      = sliceString (doc v2) r.1 r.2) (visibleRanges v1) ->
     buildDecorationsResult v1 = buildDecorationsResult v2)
  /\ (forall v : EditorView,
        enabled (settingsField v) = true ->
        frontmatterDisabled (settingsField v) = false ->
        buildDecorationsResult v
        = RangeSetBuilder_addAll []
            (concat (map (fun r => map (shiftRange r.1)
                                     (scanText (allowedSet (settingsField v))
                                               (sliceString (doc v) r.1 r.2)))
                         (visibleRanges v))))
  /\ (forall v : EditorView,
        length (visibleRanges v) <= 1 ->
        buildDecorationsResult v = Some (layersOf (buildDecorations v)))
  /\ (forall decorations1 decorations2 u,
        docChanged u || viewportChanged u
        || existsb (existsb isOwnEffect) (transactions u) = true ->
        plugin_update decorations1 u = plugin_update decorations2 u).
Proof.
  split; [|split; [|split]].
  - intros v1 v2 Hf Hr Ht. unfold buildDecorationsResult. f_equal.
    unfold buildDecorations. rewrite <- Hf.
    destruct (negb (enabled (settingsField v1))
              || frontmatterDisabled (settingsField v1)); [reflexivity|].
    rewrite !fold_scanRange, <- Hr. f_equal. f_equal.
    clear Hr. induction Ht as [|r rs Hr' _ IH]; simpl; [reflexivity|].
    rewrite IH. f_equal. unfold scanRange. now rewrite Hr'.
  - intros v He Hf. unfold buildDecorationsResult.
    now rewrite buildDecorations_concat.
  - exact buildDecorationsResult_single.
  - intros d1 d2 u H. unfold plugin_update. now rewrite H.
Qed.

(** Two documents that differ outside the visible range [[1,3)]. *)
Lemma scan_deterministic_witness :
  buildDecorationsResult
    (sampleView (samplePlugin true JUndefined)
                [letter_a; e_acute; e_acute; letter_b] [(1, 3)])
  = buildDecorationsResult
      (sampleView (samplePlugin true JUndefined)
                  [letter_b; e_acute; e_acute; letter_a; e_acute] [(1, 3)]).
Proof.
  apply (proj1 scan_deterministic); [reflexivity | reflexivity |].
  constructor; [reflexivity | constructor].
Defined.

(** ** Where the edit-mode scan goes wrong

    After a run of several code points has been added, [i] and [pos] jump
    to its end but the loop carries on with the second code point of that
    run: every later test reads the right character at the wrong offset. *)

(** A surrogate that stands alone is one code point of one unit, above
    U+007F, and flagged unless that one-unit string is allowed. *)
Lemma lone_surrogate_flagged (allowed : gset jsstring) (u : N) :
  (0xD800 <= u)%N -> (u <= 0xDFFF)%N ->
  JS.Array_from [u] = [[u]]
  /\ JS.codePointAt [u] 0 = Some u
  /\ isFlagged allowed [u] = negb (Set_has allowed [u]).
Proof.
  intros Hlo Hhi.
  assert (Hcp : JS.codePointAt [u] 0 = Some u).
  { unfold JS.codePointAt. simpl. now destruct (JS.isLeadingSurrogate u). }
  repeat split; [exact Hcp|].
  unfold isFlagged. rewrite Hcp.
  assert ((0x7f <? u)%N = true) as -> by (apply N.ltb_lt; lia).
  reflexivity.
Qed.

(** Closed conjuncts are settled by evaluation, those about every text by
    the properties of the reading view. *)
Ltac conjuncts :=
  cbv zeta; repeat match goal with |- _ /\ _ => split end.

Ltac by_reading_view_or_evaluation :=
  first [ intros ? ?; apply readingRuns_properties
        | vm_compute; reflexivity ].

(** C1. On ["ééab"] with an empty allowlist the scan adds [[0,2)] and then
    [[2,3)]: the ASCII letter [a] at offset 2 lies inside a run.  On
    ["ééaaé"] it adds [[0,2)], [[2,3)] and [[5,6)]: the flagged [é] at offset
    4 lies inside none.  Coverage fails on both; it holds for the runs of
    the reading view on every text. *)
Theorem coverage_broken_after_run :
  let text1 := [e_acute; e_acute; letter_a; letter_b] in
  let text2 := [e_acute; e_acute; letter_a; letter_a; e_acute] in
  scanText ∅ text1 = [(0, 2); (2, 3)]
  /\ isFlagged ∅ [letter_a] = false
  /\ runsHolding (scanText ∅ text1) (2, [letter_a]) = 1
  /\ coverageComplete ∅ text1 (scanText ∅ text1) = false
  /\ scanText ∅ text2 = [(0, 2); (2, 3); (5, 6)]
  /\ isFlagged ∅ [e_acute] = true
  /\ runsHolding (scanText ∅ text2) (4, [e_acute]) = 0
  /\ coverageComplete ∅ text2 (scanText ∅ text2) = false
  /\ (forall allowed text,
        coverageComplete allowed text (readingRuns allowed text) = true).
Proof.
  conjuncts; by_reading_view_or_evaluation.
Qed.

(** C2. On ["éé"] the scan adds [[0,2)] and then [[2,3)]: two runs that
    touch, where one merged run is due; the reading view yields the single
    run [[0,2)] and never two runs that touch.  The empty text yields no
    run. *)
Theorem adjacent_runs_emitted :
  scanText ∅ [e_acute; e_acute] = [(0, 2); (2, 3)]
  /\ separated (scanText ∅ [e_acute; e_acute]) = false
  /\ readingRuns ∅ [e_acute; e_acute] = [(0, 2)]
  /\ (forall allowed text, separated (readingRuns allowed text) = true)
  /\ (forall allowed, scanText allowed [] = []).
Proof.
  conjuncts; by_reading_view_or_evaluation.
Qed.

(** C3. On ["ééab😀"] the third run starts at offset 5, between the two
    units of the emoji (offsets 4 and 5), and ends at 7, past the end of the
    six-unit text.  The runs of the reading view lie on code point
    boundaries on every text. *)
Theorem run_splits_surrogate_pair :
  let text := [e_acute; e_acute; letter_a; letter_b; 0xD83D; 0xDE00]%N in
  scanText ∅ text = [(0, 2); (2, 3); (5, 7)]
  /\ boundaries text = [0; 1; 2; 3; 4; 6]
  /\ splitsPair text 5 = true
  /\ boundarySafe text (scanText ∅ text) = false
  /\ readingRuns ∅ text = [(0, 2); (4, 6)]
  /\ (forall allowed text',
        boundarySafe text' (readingRuns allowed text') = true).
Proof.
  conjuncts; by_reading_view_or_evaluation.
Qed.

(** C8. On ["éé"] the two surfaces disagree: the editor gets [[0,2)] and
    [[2,3)], the reading view one span over [[0,2)].  The reading view is,
    on every text, the run detector the specification describes. *)
Theorem surfaces_disagree :
  scanText ∅ [e_acute; e_acute] = [(0, 2); (2, 3)]
  /\ readingRuns ∅ [e_acute; e_acute] = [(0, 2)]
  /\ scanText ∅ [e_acute; e_acute] <> readingRuns ∅ [e_acute; e_acute]
  /\ (forall allowed text, readingRuns allowed text = specRuns allowed text).
Proof.
  split; [vm_compute; reflexivity|]. split; [vm_compute; reflexivity|].
  split; [|exact readingRuns_specRuns].
  intros H. vm_compute in H. discriminate H.
Qed.

(** C10. On ["ééaa"] followed by the lone surrogate U+D800 the scan ends
    normally with ordered runs, and the surrogate is read as one flagged
    code point of one unit; but the run added for it is [[5,6)], past the end
    of the five-unit text, and the surrogate itself, at offset 4, lies in no
    run. *)
Theorem lone_surrogate_run_misplaced :
  let text := [e_acute; e_acute; letter_a; letter_a; 0xD800]%N in
  JS.Array_from text
  = [[e_acute]; [e_acute]; [letter_a]; [letter_a]; [0xD800%N]]
  /\ isFlagged ∅ [0xD800%N] = true
  /\ scanText ∅ text = [(0, 2); (2, 3); (5, 6)]
  /\ length text = 5
  /\ runsHolding (scanText ∅ text) (4, [0xD800%N]) = 0
  /\ coverageComplete ∅ text (scanText ∅ text) = false
  /\ readingRuns ∅ text = [(0, 2); (4, 5)].
Proof. conjuncts; vm_compute; reflexivity. Qed.

(** * Further properties *)

(** ** The edit-mode scan, beyond the claims *)

Section EditScan.

Variable allowed : gset jsstring.

Lemma Array_from_tail s ch rest :
  JS.Array_from s = ch :: rest ->
  JS.Array_from (drop (length ch) s) = rest.
Proof.
  destruct s as [|u [|v r]]; [discriminate | now intros [= <- <-] |].
  destruct (isPair u v) eqn:E.
  - rewrite Array_from_pair_eq by assumption. now intros [= <- <-].
  - rewrite Array_from_unit_eq by assumption. now intros [= <- <-].
Qed.

(** Slicing at a code point boundary leaves the later code points as they
    were. *)
Lemma Array_from_suffix pre :
  forall s suf,
    JS.Array_from s = pre ++ suf ->
    JS.Array_from (drop (length (concat pre)) s) = suf.
Proof.
  induction pre as [|ch pre IH]; intros s suf H; simpl.
  - now rewrite drop_0.
  - rewrite length_app, <- drop_drop. apply IH.
    now apply Array_from_tail.
Qed.

Lemma scanStep_flagged_pos text st ch :
  isFlagged allowed ch = true ->
  pos (scanStep allowed text st ch)
  = peekAhead allowed (JS.Array_from (JS.slice text (idx st + length ch)))
              (pos st + length ch).
Proof. intros H. unfold scanStep. now rewrite H. Qed.

Lemma fold_scanStep_count text chs st :
  length (builder (fold_left (scanStep allowed text) chs st))
  = length (builder st) + countFlagged allowed chs.
Proof.
  revert st. unfold countFlagged.
  induction chs as [|ch chs IH]; intros st; simpl; [lia|].
  rewrite IH. unfold scanStep.
  destruct (isFlagged allowed ch); simpl; [|lia].
  rewrite length_app. simpl. lia.
Qed.

Lemma specScan_open_closed rest off s :
  match rest with
  | ch :: _ => isFlagged allowed ch = false
  | [] => True
  end ->
  specScan allowed rest off (Some s)
  = (s, off) :: specScan allowed rest off None.
Proof.
  destruct rest as [|ch rest]; [reflexivity|]. simpl. now intros ->.
Qed.

Lemma specScan_open_head rest off s :
  exists more,
    specScan allowed rest off (Some s)
    = (s, peekAhead allowed rest off) :: more.
Proof.
  revert off. induction rest as [|ch rest IH]; intros off; simpl.
  - now exists [].
  - destruct (isFlagged allowed ch); [apply IH|]. eauto.
Qed.

Lemma peekAhead_stops rest runEnd :
  match rest with
  | ch :: _ => isFlagged allowed ch = false
  | [] => True
  end ->
  peekAhead allowed rest runEnd = runEnd.
Proof. destruct rest as [|ch rest]; [reflexivity|]. simpl. now intros ->. Qed.

Lemma noAdjacentFlagged_eq ch ch' rest :
  noAdjacentFlagged allowed (ch :: ch' :: rest)
  = negb (isFlagged allowed ch && isFlagged allowed ch')
    && noAdjacentFlagged allowed (ch' :: rest).
Proof. reflexivity. Qed.

Lemma noAdjacentFlagged_cons ch rest :
  noAdjacentFlagged allowed (ch :: rest) = true ->
  noAdjacentFlagged allowed rest = true
  /\ (isFlagged allowed ch = true ->
      match rest with
      | ch' :: _ => isFlagged allowed ch' = false
      | [] => True
      end).
Proof.
  destruct rest as [|ch' rest]; [now split|].
  cbn [noAdjacentFlagged]. rewrite andb_true_iff, negb_true_iff.
  intros [H1 H2]. split; [exact H2|]. intros Hf. now rewrite Hf in H1.
Qed.

(** While the scan is in step with the text ([i] is the offset of the code
    point in hand) and no two flagged code points are neighbours, it does
    what the specification asks. *)
Lemma scan_isolated text chs :
  forall k b,
    JS.Array_from (drop k text) = chs ->
    noAdjacentFlagged allowed chs = true ->
    builder (fold_left (scanStep allowed text) chs
                       {| idx := k; pos := k; builder := b |})
    = b ++ specScan allowed chs k None.
Proof.
  induction chs as [|ch rest IH]; intros k b Hchs Hiso.
  - simpl. now rewrite app_nil_r.
  - apply noAdjacentFlagged_cons in Hiso as [Hrest Hnext].
    pose proof (Array_from_tail _ _ _ Hchs) as Htail.
    rewrite drop_drop in Htail.
    cbn [fold_left specScan]. unfold scanStep at 2. cbn [idx pos builder].
    destruct (isFlagged allowed ch) eqn:Ech.
    + unfold JS.slice. rewrite Htail.
      rewrite (peekAhead_stops rest _ (Hnext eq_refl)).
      replace (k + (k + length ch - k)) with (k + length ch) by lia.
      rewrite (IH _ _ Htail Hrest).
      rewrite (specScan_open_closed rest _ k (Hnext eq_refl)).
      now rewrite <- app_assoc.
    + now rewrite (IH _ _ Htail Hrest).
Qed.

Lemma scan_first_run text chs :
  forall k,
    JS.Array_from (drop k text) = chs ->
    head (builder (fold_left (scanStep allowed text) chs
                             {| idx := k; pos := k; builder := [] |}))
    = head (specScan allowed chs k None).
Proof.
  induction chs as [|ch rest IH]; intros k Hchs; [reflexivity|].
  pose proof (Array_from_tail _ _ _ Hchs) as Htail.
  rewrite drop_drop in Htail.
  cbn [fold_left specScan].
  destruct (isFlagged allowed ch) eqn:Ech.
  - rewrite fold_scanStep_builder, (scanStep_flagged allowed _ _ _ Ech).
    rewrite (scanStep_flagged_pos _ _ _ Ech). cbn [idx pos builder app head].
    unfold JS.slice. rewrite Htail. change (default k None) with k.
    destruct (specScan_open_head rest (k + length ch) k) as (more & ->).
    reflexivity.
  - unfold scanStep at 2. rewrite Ech. cbn [idx pos builder].
    now apply IH.
Qed.

(** Runs of the specification: never more than the flagged code points,
    and fewer as soon as two of them are neighbours. *)
Lemma specScan_length chs :
  forall off,
    (length (specScan allowed chs off None) <= countFlagged allowed chs)
    /\ (forall s,
          length (specScan allowed chs off (Some s))
          <= S (countFlagged allowed chs))
    /\ (noAdjacentFlagged allowed chs = false ->
        length (specScan allowed chs off None) < countFlagged allowed chs
        /\ forall s, length (specScan allowed chs off (Some s))
                     < S (countFlagged allowed chs))
    /\ (match chs with
        | ch :: _ => isFlagged allowed ch = true
        | [] => False
        end ->
        forall s, length (specScan allowed chs off (Some s))
                  <= countFlagged allowed chs).
Proof.
  unfold countFlagged.
  induction chs as [|ch rest IH]; intros off.
  - simpl. repeat split; try lia; try discriminate; try contradiction.
  - destruct (IH (off + length ch)) as (IHn & IHs & IHadj & IHhead).
    cbn [specScan List.filter].
    destruct (isFlagged allowed ch) eqn:Ech; cbn [length default from_option id].
    + split; [apply IHs|]. split; [intros s; specialize (IHs s); lia|].
      split; [|intros _ s; apply IHs].
      destruct rest as [|ch' rest']; [discriminate|].
      rewrite noAdjacentFlagged_eq, Ech.
      destruct (isFlagged allowed ch') eqn:Ech'; cbn [andb negb].
      * intros _.
        assert (G : forall s,
                  length (specScan allowed (ch' :: rest') (off + length ch)
                                   (Some s))
                  <= length (List.filter (isFlagged allowed) (ch' :: rest')))
          by (apply IHhead; first [exact Ech' | reflexivity]).
        split; [apply Nat.lt_succ_r, G|].
        intros s. specialize (G s). lia.
      * intros Hadj. destruct (IHadj Hadj) as [_ H2].
        split; [apply H2|]. intros s. specialize (H2 s). lia.
    + split; [destruct (IH (off + length ch)) as (H & _); exact H|].
      split; [intros s; cbn [length]; lia|].
      split; [|discriminate].
      destruct rest as [|ch' rest']; [discriminate|].
      rewrite noAdjacentFlagged_eq, Ech. cbn [andb negb].
      intros Hadj. destruct (IHadj Hadj) as [H1 _].
      split; [exact H1|]. intros s. cbn [length]. lia.
Qed.

End EditScan.

(** ** The fragments of the reading view *)

Section Fragments.

Variable allowed : gset jsstring.

(** A leading stretch of the code points of a string, read on its own,
    gives the same code points. *)
Lemma Array_from_prefix g :
  forall s suf,
    JS.Array_from s = g ++ suf -> JS.Array_from (concat g) = g.
Proof.
  induction g as [|ch g IH]; intros s suf H; [reflexivity|].
  pose proof (Array_from_tail s ch (g ++ suf) H) as Htail.
  pose proof (IH _ _ Htail) as IHg.
  pose proof (concat_Array_from (drop (length ch) s)) as Hcat.
  rewrite Htail, concat_app in Hcat.
  destruct s as [|u [|v r]]; [discriminate | |].
  - injection H as <- Hnil. symmetry in Hnil.
    apply app_eq_nil in Hnil as [-> _]. reflexivity.
  - destruct (isPair u v) eqn:E.
    + rewrite Array_from_pair_eq in H by assumption. injection H as <- _.
      change (concat ([u; v] :: g)) with (u :: v :: concat g).
      rewrite Array_from_pair_eq by assumption. now rewrite IHg.
    + rewrite Array_from_unit_eq in H by assumption. injection H as <- _.
      change (concat ([u] :: g)) with (u :: concat g).
      simpl in Hcat.
      destruct (concat g) as [|y t] eqn:Ec.
      * simpl in IHg. now rewrite <- IHg.
      * injection Hcat as -> _.
        rewrite Array_from_unit_eq by assumption. now rewrite IHg.
Qed.

Lemma Array_from_infix pre g suf s :
  JS.Array_from s = pre ++ g ++ suf -> JS.Array_from (concat g) = g.
Proof.
  intros H. apply Array_from_suffix in H.
  now apply Array_from_prefix in H.
Qed.

Lemma concat_nonempty_nil (l : list jsstring) :
  Forall (fun ch : jsstring => ch <> []) l -> concat l = [] -> l = [].
Proof.
  destruct 1 as [|ch l Hch _]; [reflexivity|]. simpl.
  intros [Hn _]%app_eq_nil. contradiction.
Qed.

Lemma renderGroup_textContent g : textContent (renderGroup g) = concat g.2.
Proof.
  unfold renderGroup. destruct g.1; simpl; [apply app_nil_r | reflexivity].
Qed.

(** Flushing closes the stretch in hand. *)
Lemma flushBuffer_readInv done st :
  readInv allowed done st ->
  exists groups,
    wrapper (flushBuffer st) = map renderGroup groups
    /\ Forall (groupOK allowed) groups
    /\ concat (map snd groups) = done.
Proof.
  intros (groups & bufchs & Hw & Hg & Hb & Hbuf & Hdone).
  assert (Hne : Forall (fun ch : jsstring => ch <> []) bufchs)
    by (eapply Forall_impl; [exact Hbuf | now intros ch [_ ?]]).
  unfold flushBuffer. destruct (length (buffer st) =? 0) eqn:E.
  - apply length_zero_nil in E. rewrite Hb in E.
    apply (concat_nonempty_nil _ Hne) in E. subst bufchs.
    exists groups. rewrite app_nil_r in Hdone. auto.
  - exists (groups ++ [(inHighlight st, bufchs)]). cbn [wrapper].
    split; [|split].
    + rewrite map_app, Hw, Hb. reflexivity.
    + apply Forall_app. split; [exact Hg|]. constructor; [|constructor].
      split; [|exact Hbuf]. cbn [snd]. intros ->.
      rewrite Hb in E. discriminate E.
    + rewrite map_app, concat_app. simpl. now rewrite app_nil_r.
Qed.

Lemma readStep_readInv done st ch :
  ch <> [] ->
  readInv allowed done st ->
  readInv allowed (done ++ [ch]) (readStep allowed st ch).
Proof.
  intros Hne Hinv.
  assert (Hsame : isFlagged allowed ch = inHighlight st ->
                  readInv allowed (done ++ [ch]) (appendBuffer ch st)).
  { intros Hk. destruct Hinv as (groups & bufchs & Hw & Hg & Hb & Hbuf & Hd).
    exists groups, (bufchs ++ [ch]). cbn [appendBuffer wrapper buffer inHighlight].
    split; [exact Hw|]. split; [exact Hg|]. split; [|split].
    - rewrite concat_app, Hb. simpl. now rewrite app_nil_r.
    - apply Forall_app. split; [exact Hbuf|]. now repeat constructor.
    - now rewrite app_assoc, Hd. }
  assert (Hswitch : forall b,
            isFlagged allowed ch = b ->
            readInv allowed (done ++ [ch])
                    (appendBuffer ch (setInHighlight b (flushBuffer st)))).
  { intros b Hk.
    destruct (flushBuffer_readInv done st Hinv) as (groups & Hw & Hg & Hd).
    exists groups, [ch].
    cbn [appendBuffer setInHighlight wrapper buffer inHighlight].
    rewrite flushBuffer_buffer.
    split; [exact Hw|]. split; [exact Hg|]. split; [|split].
    - simpl. now rewrite app_nil_r.
    - now repeat constructor.
    - now rewrite Hd. }
  unfold readStep.
  destruct (isFlagged allowed ch) eqn:Ech, (inHighlight st) eqn:Ehl;
    [apply Hsame | apply Hswitch | apply Hswitch | apply Hsame];
    congruence.
Qed.

Lemma fold_readStep_readInv chs :
  Forall (fun ch : jsstring => ch <> []) chs ->
  forall done st,
    readInv allowed done st ->
    readInv allowed (done ++ chs) (fold_left (readStep allowed) chs st).
Proof.
  induction 1 as [|ch chs Hch _ IH]; intros done st Hinv; simpl.
  - now rewrite app_nil_r.
  - change (ch :: chs) with ([ch] ++ chs). rewrite app_assoc.
    apply IH. now apply readStep_readInv.
Qed.

(** The children of the wrapper are the code points of the text, cut into
    stretches of one kind. *)
Lemma wrapNode_groups content :
  exists groups,
    wrapNode allowed content = Element "span" None (map renderGroup groups)
    /\ Forall (groupOK allowed) groups
    /\ concat (map snd groups) = JS.Array_from content.
Proof.
  unfold wrapNode.
  set (st0 := {| wrapper := []; inHighlight := false; buffer := [] |}).
  assert (H0 : readInv allowed [] st0).
  { exists [], []. repeat split; constructor. }
  pose proof (fold_readStep_readInv (JS.Array_from content)
                (Array_from_nonempty content) [] st0 H0) as Hinv.
  destruct (flushBuffer_readInv _ _ Hinv) as (groups & Hw & Hg & Hd).
  exists groups. rewrite Hw. auto.
Qed.

Lemma groups_fragments s groups :
  forall pre suf,
    JS.Array_from s = pre ++ concat (map snd groups) ++ suf ->
    Forall (groupOK allowed) groups ->
    Forall (Fragment allowed) (map renderGroup groups)
    /\ concat (map (fun c => JS.Array_from (textContent c))
                   (map renderGroup groups))
       = concat (map snd groups).
Proof.
  induction groups as [|g groups IH]; intros pre suf Hs Hok.
  - split; [constructor | reflexivity].
  - apply Forall_cons in Hok as [[Hne Hg] Hok].
    cbn [map concat] in Hs. rewrite <- app_assoc in Hs.
    pose proof (Array_from_infix _ _ _ _ Hs) as Hcp.
    rewrite app_assoc in Hs. destruct (IH _ _ Hs Hok) as [IHf IHc].
    split.
    + cbn [map]. constructor; [|exact IHf].
      assert (Hnonempty : concat g.2 <> []).
      { destruct g.2 as [|ch chs]; [contradiction|].
        apply Forall_cons in Hg as [[_ Hch] _]. simpl.
        intros [? _]%app_eq_nil. contradiction. }
      assert (Hu : uniformText allowed g.1 (concat g.2)).
      { unfold uniformText. rewrite Hcp.
        eapply Forall_impl; [exact Hg | now intros ch [? _]]. }
      unfold renderGroup. destruct g.1; now constructor.
    + cbn [map concat]. now rewrite renderGroup_textContent, Hcp, IHc.
Qed.

End Fragments.

(** A highlight span that holds an ASCII letter next to a flagged one is no
    fragment, nor is plain text that holds a flagged character. *)
Lemma Fragment_rejects_mixed :
  ~ Fragment ∅ (highlightSpan [e_acute; letter_a])
  /\ ~ Fragment ∅ (Text [letter_a; e_acute]).
Proof.
  split; intros H; inversion H as [t _ Hu Ht | t _ Hu Ht]; subst;
    unfold uniformText in Hu; cbn [JS.Array_from] in Hu.
  - apply Forall_cons in Hu as [_ Hu]. apply Forall_cons in Hu as [Hu _].
    vm_compute in Hu. discriminate Hu.
  - apply Forall_cons in Hu as [_ Hu]. apply Forall_cons in Hu as [Hu _].
    vm_compute in Hu. discriminate Hu.
Qed.

(** C4. Round trip of the reading-view annotator: the span that replaces a
    text node has, fragment after fragment, exactly the text of the node;
    its children are plain text whose code points are all unflagged or
    highlight spans whose code points are all flagged, and the code points
    of the children, in order, are the code points of the node's text; the
    text of the whole rendered element is the same after the pass as
    before. *)
Theorem reading_roundtrip (allowed : gset jsstring) :
  (forall content, textContent (wrapNode allowed content) = content)
  /\ (forall content, exists children,
        wrapNode allowed content = Element "span" None children
        /\ concat (map textContent children) = content
        /\ Forall (Fragment allowed) children
        /\ concat (map (fun c => JS.Array_from (textContent c)) children)
           = JS.Array_from content)
  /\ (forall el,
        textContent (highlightNonAsciiInReading el allowed) = textContent el).
Proof.
  split; [|split].
  - apply wrapNode_textContent.
  - intros content.
    destruct (wrapNode_groups allowed content) as (groups & E & Hok & Hd).
    exists (map renderGroup groups). split; [exact E|].
    pose proof (wrapNode_textContent allowed content) as HT.
    rewrite E in HT. split; [exact HT|].
    destruct (groups_fragments allowed content groups [] []) as [Hf Hc];
      [now rewrite Hd, app_nil_r | exact Hok |].
    split; [exact Hf|]. now rewrite Hc.
  - apply highlightNonAsciiInReading_textContent.
Qed.

Section EditScanBounds.

Variable allowed : gset jsstring.

Lemma peekAhead_le remaining runEnd :
  peekAhead allowed remaining runEnd <= runEnd + length (concat remaining).
Proof.
  revert runEnd. induction remaining as [|ch rest IH]; intros runEnd; simpl.
  - lia.
  - rewrite length_app. destruct (isFlagged allowed ch); [|lia].
    specialize (IH (runEnd + length ch)). lia.
Qed.

(** [i] and [pos] move in step, and [i] never runs further ahead of the
    text than the code points already visited are long. *)
Lemma scanStep_lockstep text from m st ch :
  pos st = from + idx st ->
  idx st <= length text + m ->
  pos (scanStep allowed text st ch) = from + idx (scanStep allowed text st ch)
  /\ idx (scanStep allowed text st ch) <= length text + (m + length ch).
Proof.
  intros Hpos Hidx. unfold scanStep.
  destruct (isFlagged allowed ch); cbn [idx pos]; [|lia].
  pose proof (peekAhead_ge allowed
                (JS.Array_from (JS.slice text (idx st + length ch)))
                (pos st + length ch)) as Hge.
  pose proof (peekAhead_le
                (JS.Array_from (JS.slice text (idx st + length ch)))
                (pos st + length ch)) as Hle.
  rewrite concat_Array_from in Hle. unfold JS.slice in *.
  rewrite length_drop in Hle. lia.
Qed.

Lemma fold_scanStep_lockstep text from chs :
  forall m st,
    pos st = from + idx st ->
    idx st <= length text + m ->
    pos (fold_left (scanStep allowed text) chs st)
    <= from + length text + (m + length (concat chs)).
Proof.
  induction chs as [|ch chs IH]; intros m st Hpos Hidx; simpl.
  - lia.
  - destruct (scanStep_lockstep text from m st ch Hpos Hidx) as [H1 H2].
    specialize (IH _ _ H1 H2). rewrite length_app. lia.
Qed.

End EditScanBounds.

(** X1. The scan of a visible range adds exactly one run for every flagged
    code point of its text: as many runs as flagged code points, so none at
    all exactly when the text has no flagged code point. *)
Theorem edit_scan_run_count (allowed : gset jsstring) (d : jsstring)
    (r : nat * nat) :
  length (scanRange allowed d [] r)
  = countFlagged allowed (JS.Array_from (sliceString d r.1 r.2))
  /\ (scanRange allowed d [] r = []
      <-> Forall (fun ch => isFlagged allowed ch = false)
                 (JS.Array_from (sliceString d r.1 r.2))).
Proof.
  assert (Hlen : length (scanRange allowed d [] r)
                 = countFlagged allowed
                     (JS.Array_from (sliceString d r.1 r.2))).
  { unfold scanRange. now rewrite fold_scanStep_count. }
  split; [exact Hlen|].
  rewrite <- length_zero_iff_nil, Hlen. unfold countFlagged.
  generalize (JS.Array_from (sliceString d r.1 r.2)). intros chs.
  induction chs as [|ch chs IH]; simpl.
  - split; [constructor | reflexivity].
  - destruct (isFlagged allowed ch) eqn:E; simpl.
    + split; [discriminate|]. intros H. inversion H; congruence.
    + rewrite IH. split; [now constructor | now inversion 1].
Qed.

(** X2. The editor marks a text as the reading view does exactly when no
    two flagged code points of the text are neighbours. *)
Theorem edit_scan_agrees_iff_isolated (allowed : gset jsstring)
    (text : jsstring) :
  scanText allowed text = readingRuns allowed text
  <-> noAdjacentFlagged allowed (JS.Array_from text) = true.
Proof.
  rewrite readingRuns_specRuns. unfold specRuns. split.
  - intros Heq.
    destruct (noAdjacentFlagged allowed (JS.Array_from text)) eqn:E;
      [reflexivity|].
    destruct (specScan_length allowed (JS.Array_from text) 0)
      as (_ & _ & Hadj & _).
    destruct (Hadj E) as [Hlt _].
    rewrite <- Heq, scanText_unfold, fold_scanStep_count in Hlt.
    simpl in Hlt. lia.
  - intros Hiso. rewrite scanText_unfold.
    now rewrite (scan_isolated allowed text _ 0 []).
Qed.

(** X3. The first run the editor adds for a text is always the first run of
    the reading view; the two can only part after it. *)
Theorem edit_scan_first_run (allowed : gset jsstring) (text : jsstring) :
  head (scanText allowed text) = head (readingRuns allowed text).
Proof.
  rewrite readingRuns_specRuns, scanText_unfold. unfold specRuns.
  now apply scan_first_run.
Qed.

(** X4. Within one visible range the runs come in ascending order from
    [from] on, never overlap and are never empty; a run may end past [to],
    but none ends beyond [from] plus twice the length of the range's
    text. *)
Theorem edit_scan_ordered_bounded (allowed : gset jsstring) (d : jsstring)
    (r : nat * nat) :
  exists hi,
    runsBetween r.1 (scanRange allowed d [] r) hi
    /\ hi <= r.1 + 2 * length (sliceString d r.1 r.2).
Proof.
  unfold scanRange. set (text := sliceString d r.1 r.2).
  set (st0 := {| idx := 0; pos := r.1; builder := [] |}).
  exists (pos (fold_left (scanStep allowed text) (JS.Array_from text) st0)).
  split.
  - apply fold_scanStep_ordered. simpl. lia.
  - pose proof (fold_scanStep_lockstep allowed text r.1
                  (JS.Array_from text) 0 st0) as H.
    rewrite concat_Array_from in H. simpl in H.
    assert (r.1 = r.1 + 0) as E by lia.
    specialize (H E). lia.
Qed.

(** ** The reading view, beyond the claims *)

Section ReadingMore.

Variable allowed : gset jsstring.

Lemma codePointAt_first (u : N) (rest : jsstring) :
  exists code,
    JS.codePointAt (u :: rest) 0 = Some code
    /\ ((0x7f <? code)%N = (0x7f <? u)%N).
Proof.
  unfold JS.codePointAt. simpl.
  destruct (JS.isLeadingSurrogate u) eqn:El; [|eauto].
  destruct rest as [|v rest]; [eauto|].
  destruct (JS.isTrailingSurrogate v); [|eauto].
  eexists. split; [reflexivity|].
  unfold JS.isLeadingSurrogate in El.
  apply andb_true_iff in El as [Hlo _]. apply N.leb_le in Hlo.
  assert ((0x7f <? u)%N = true) as -> by (apply N.ltb_lt; lia).
  apply N.ltb_lt. unfold JS.surrogatePairToCodePoint. lia.
Qed.

Lemma isFlagged_iff ch :
  isFlagged allowed ch = true
  <-> (exists u rest, ch = u :: rest /\ (0x7f < u)%N) /\ ch ∉ allowed.
Proof.
  unfold isFlagged, Set_has. destruct ch as [|u rest].
  - simpl. split; [discriminate|]. intros [(u & rest & H & _) _].
    discriminate H.
  - destruct (codePointAt_first u rest) as (code & -> & ->).
    rewrite andb_true_iff, negb_true_iff, bool_decide_eq_false, N.ltb_lt.
    split.
    + intros [Hu Hn]. split; [|exact Hn]. now exists u, rest.
    + intros [(u' & rest' & [= <- <-] & Hu) Hn]. now split.
Qed.

Lemma hasNonAscii_false data :
  hasNonAscii data = false -> Forall (fun u => (u <= 0x7F)%N) data.
Proof.
  unfold hasNonAscii. destruct data as [|u0 data0]; [constructor|].
  cbn [length Nat.eqb negb andb]. intros H.
  apply Forall_forall. intros u Hu.
  destruct (N.leb_spec u 0x7F) as [|Hgt]; [assumption|].
  assert (existsb (fun u => (0x7F <? u)%N) (u0 :: data0) = true); [|congruence].
  apply existsb_exists. exists u. split.
  - now apply list_elem_of_In.
  - now apply N.ltb_lt.
Qed.

Lemma ascii_hasNonAscii data :
  Forall (fun u => (u <= 0x7F)%N) data -> hasNonAscii data = false.
Proof.
  intros H. unfold hasNonAscii. apply andb_false_iff. right.
  induction H as [|u data Hu _ IH]; [reflexivity|]. simpl.
  rewrite IH, orb_false_r. apply N.ltb_ge. exact Hu.
Qed.

Lemma Array_from_units s ch u :
  ch ∈ JS.Array_from s -> u ∈ ch -> u ∈ s.
Proof.
  intros Hch Hu. rewrite <- (concat_Array_from s).
  apply list_elem_of_In, in_concat. exists ch.
  split; now apply list_elem_of_In.
Qed.

Lemma ascii_not_flagged data :
  Forall (fun u => (u <= 0x7F)%N) data ->
  Forall (fun ch => isFlagged allowed ch = false) (JS.Array_from data).
Proof.
  intros Hascii. apply Forall_forall. intros ch Hch.
  destruct (isFlagged allowed ch) eqn:E; [|reflexivity].
  apply isFlagged_iff in E as [(u & rest & -> & Hu) _].
  rewrite Forall_forall in Hascii.
  assert (u ∈ data) by (eapply Array_from_units; [exact Hch | left]).
  specialize (Hascii u H). lia.
Qed.


End ReadingMore.

(** A code point boundary is never the middle of a surrogate pair. *)
Lemma codePointsFrom_boundary_not_split :
  forall s off k,
    k ∈ off :: map (fun c : nat * jsstring => c.1 + length c.2)
                   (codePointsFrom off (JS.Array_from s)) ->
    off <= k ->
    match k - off with
    | 0 => True
    | S j =>
        match s !! j, s !! S j with
        | Some lead, Some trail => isPair lead trail = false
        | _, _ => True
        end
    end.
Proof.
  intros s.
  induction s as [| u | u v rest E IH | u v rest E IH] using Array_from_ind;
    intros off k Hk Hle.
  - destruct (k - off) as [|j]; [exact I|]. now rewrite lookup_nil.
  - destruct (k - off) as [|[|j]]; [exact I | exact I | exact I].
  - rewrite Array_from_pair_eq in Hk by assumption.
    cbn [codePointsFrom map fst snd length] in Hk.
    apply elem_of_cons in Hk as [-> | Hk];
      [now rewrite Nat.sub_diag|].
    assert (Hk' : off + 2 <= k).
    { clear -Hk. revert Hk.
      generalize (JS.Array_from rest). intros chs.
      assert (G : forall o, k ∈ o :: map (fun c : nat * jsstring =>
                                           c.1 + length c.2)
                                        (codePointsFrom o chs) -> o <= k).
      { induction chs as [|ch chs IHc]; intros o Ho.
        - apply elem_of_cons in Ho as [-> | Ho]; [lia|]. inversion Ho.
        - apply elem_of_cons in Ho as [-> | Ho]; [lia|].
          cbn [codePointsFrom map fst snd] in Ho.
          specialize (IHc _ Ho). lia. }
      apply G. }
    specialize (IH (off + 2) k Hk Hk').
    replace (k - off) with (S (S (k - (off + 2)))) by lia.
    destruct (k - (off + 2)) as [|j]; [|exact IH].
    cbn. destruct rest as [|w rest']; [exact I|].
    unfold isPair. unfold isPair in E. apply andb_true_iff in E as [_ Et].
    assert (JS.isLeadingSurrogate v = false) as ->; [|reflexivity].
    unfold JS.isLeadingSurrogate, JS.isTrailingSurrogate in *.
    apply andb_true_iff in Et as [Hlo _]. apply N.leb_le in Hlo.
    apply andb_false_iff. right. apply N.leb_gt. lia.
  - rewrite Array_from_unit_eq in Hk by assumption.
    cbn [codePointsFrom map fst snd length] in Hk.
    apply elem_of_cons in Hk as [-> | Hk];
      [now rewrite Nat.sub_diag|].
    assert (Hk' : off + 1 <= k).
    { clear -Hk. revert Hk.
      generalize (JS.Array_from (v :: rest)). intros chs.
      assert (G : forall o, k ∈ o :: map (fun c : nat * jsstring =>
                                           c.1 + length c.2)
                                        (codePointsFrom o chs) -> o <= k).
      { induction chs as [|ch chs IHc]; intros o Ho.
        - apply elem_of_cons in Ho as [-> | Ho]; [lia|]. inversion Ho.
        - apply elem_of_cons in Ho as [-> | Ho]; [lia|].
          cbn [codePointsFrom map fst snd] in Ho.
          specialize (IHc _ Ho). lia. }
      apply G. }
    specialize (IH (off + 1) k Hk Hk').
    replace (k - off) with (S (k - (off + 1))) by lia.
    destruct (k - (off + 1)) as [|j]; [|exact IH].
    cbn. exact E.
Qed.

Lemma onBoundary_not_split text k :
  onBoundary text k = true -> splitsPair text k = false.
Proof.
  unfold onBoundary. intros H. apply existsb_exists in H as (k' & Hin & Hk).
  apply Nat.eqb_eq in Hk as <-. apply list_elem_of_In in Hin.
  pose proof (codePointsFrom_boundary_not_split text 0 k Hin) as G.
  rewrite Nat.sub_0_r in G. specialize (G ltac:(lia)).
  unfold splitsPair. destruct k as [|j]; [reflexivity|].
  destruct (text !! j), (text !! S j); try reflexivity. exact G.
Qed.

(** X5. On every text the highlighted spans of the reading view are the
    runs of the detector that section 4.2 of the specification describes. *)
Theorem reading_view_is_spec_detector (allowed : gset jsstring)
    (text : jsstring) :
  readingRuns allowed text = specRuns allowed text.
Proof. apply readingRuns_specRuns. Qed.

(** X6. Coverage in the reading view: on every text a code point lies in
    exactly one highlighted span when it is flagged and in none
    otherwise. *)
Theorem reading_view_coverage (allowed : gset jsstring) (text : jsstring) :
  coverageComplete allowed text (readingRuns allowed text) = true.
Proof. apply readingRuns_properties. Qed.

(** X7. Maximality in the reading view: two highlighted spans of one text
    node never overlap or touch. *)
Theorem reading_view_runs_separated (allowed : gset jsstring)
    (text : jsstring) :
  separated (readingRuns allowed text) = true.
Proof. apply readingRuns_properties. Qed.

(** X8. Boundary safety in the reading view: every highlighted span starts
    and ends where a code point of the text starts or ends, so none cuts a
    surrogate pair. *)
Theorem reading_view_boundary_safe (allowed : gset jsstring)
    (text : jsstring) :
  boundarySafe text (readingRuns allowed text) = true
  /\ Forall (fun r : Range => splitsPair text r.1 = false
                              /\ splitsPair text r.2 = false)
            (readingRuns allowed text).
Proof.
  split; [apply readingRuns_properties|].
  pose proof (proj2 (proj2 (readingRuns_properties allowed text))) as H.
  unfold boundarySafe in H. rewrite forallb_forall in H.
  apply Forall_forall. intros r Hr%list_elem_of_In.
  specialize (H r Hr). apply andb_true_iff in H as [H1 H2].
  split; now apply onBoundary_not_split.
Qed.


(** X9. The pre-filter of the reading view is sound: a text node it skips
    (no code unit above 0x7F) has no flagged code point under any
    allowlist, and is left in the tree as it is. *)
Theorem prefilter_sound (allowed : gset jsstring) (data : jsstring) :
  hasNonAscii data = false ->
  Forall (fun ch => isFlagged allowed ch = false) (JS.Array_from data)
  /\ readingRuns allowed data = []
  /\ replaceTextNodes allowed (Text data) = Text data.
Proof.
  intros H. pose proof (ascii_not_flagged allowed data
                          (hasNonAscii_false data H)) as Hnf.
  split; [exact Hnf|]. split; [|simpl; now rewrite H].
  rewrite readingRuns_specRuns. unfold specRuns.
  generalize 0. induction Hnf as [|ch chs Hch _ IH]; intros off;
    [reflexivity|].
  simpl. rewrite Hch. apply IH.
Qed.

Lemma prefilter_sound_witness :
  readingRuns ∅ (JS.lit "plain text") = []
  /\ replaceTextNodes ∅ (Text (JS.lit "plain text"))
     = Text (JS.lit "plain text").
Proof.
  destruct (prefilter_sound ∅ (JS.lit "plain text")) as (_ & H1 & H2);
    [reflexivity|].
  split; [exact H1 | exact H2].
Defined.

(** X10. A rendered element whose text is all ASCII comes back from the
    reading-view pass unchanged, node for node. *)
Theorem ascii_tree_unchanged (allowed : gset jsstring) (el : Node) :
  Forall (fun u => (u <= 0x7F)%N) (textContent el) ->
  highlightNonAsciiInReading el allowed = el.
Proof.
  assert (G : forall n,
            Forall (fun u => (u <= 0x7F)%N) (textContent n) ->
            replaceTextNodes allowed n = n).
  { induction n as [data | tag cls children IH] using Node_tree_ind;
      intros Hascii.
    - simpl in *. now rewrite ascii_hasNonAscii.
    - simpl in *. f_equal.
      induction IH as [|c cs Hc _ IHcs]; [reflexivity|].
      simpl in Hascii. apply Forall_app in Hascii as [H1 H2].
      simpl. now rewrite Hc, IHcs. }
  destruct el as [data | tag cls children]; [reflexivity|].
  exact (G (Element tag cls children)).
Qed.

Lemma ascii_tree_unchanged_witness :
  highlightNonAsciiInReading
    (Element "p" None [Text (JS.lit "one "); Element "em" None
                                               [Text (JS.lit "two")]]) ∅
  = Element "p" None [Text (JS.lit "one "); Element "em" None
                                              [Text (JS.lit "two")]].
Proof.
  apply ascii_tree_unchanged.
  repeat (constructor; [apply N.leb_le; reflexivity|]). constructor.
Defined.



(** X12. What is flagged: a character is flagged exactly when its first
    code unit is above 0x7F and the character itself is not in the
    allowlist; so ASCII is never flagged, whatever the allowlist holds. *)
Theorem isFlagged_characterisation (allowed : gset jsstring)
    (ch : jsstring) :
  (isFlagged allowed ch = true
   <-> (exists u rest, ch = u :: rest /\ (0x7f < u)%N) /\ ch ∉ allowed)
  /\ (forall u, (u <= 0x7f)%N -> isFlagged allowed [u] = false).
Proof.
  split; [apply isFlagged_iff|].
  intros u Hu. destruct (isFlagged allowed [u]) eqn:E; [|reflexivity].
  apply isFlagged_iff in E as [(u' & rest & [= <- <-] & Hgt) _]. lia.
Qed.

(** ** The allowlist, beyond the claims *)

Section AllowlistMore.

Lemma Array_from_unit_elem s u :
  isSurrogate u = false -> u ∈ s -> [u] ∈ JS.Array_from s.
Proof.
  unfold isSurrogate. rewrite orb_false_iff. intros [Hl Ht].
  induction s as [| x | x y rest E IH | x y rest E IH] using Array_from_ind;
    intros Hin.
  - inversion Hin.
  - apply list_elem_of_singleton in Hin as ->. simpl. left.
  - rewrite Array_from_pair_eq by assumption.
    unfold isPair in E. apply andb_true_iff in E as [Exl Eyt].
    apply elem_of_cons in Hin as [-> | Hin]; [congruence|].
    apply elem_of_cons in Hin as [-> | Hin]; [congruence|].
    right. now apply IH.
  - rewrite Array_from_unit_eq by assumption.
    apply elem_of_cons in Hin as [-> | Hin]; [left|].
    right. now apply IH.
Qed.

Lemma joinsCleanly_tail x y a b :
  joinsCleanly (x :: y :: a) b -> joinsCleanly (y :: a) b.
Proof. unfold joinsCleanly. now cbn [last]. Qed.

Lemma Array_from_app a b :
  joinsCleanly a b ->
  JS.Array_from (a ++ b) = JS.Array_from a ++ JS.Array_from b.
Proof.
  induction a as [| u | u v rest E IH | u v rest E IH] using Array_from_ind;
    intros Hj.
  - reflexivity.
  - destruct b as [|w b']; [reflexivity|].
    unfold joinsCleanly in Hj. simpl in Hj.
    change ([u] ++ w :: b') with (u :: w :: b').
    now rewrite Array_from_unit_eq.
  - change ((u :: v :: rest) ++ b) with (u :: v :: (rest ++ b)).
    rewrite !Array_from_pair_eq by assumption.
    rewrite IH; [reflexivity|].
    destruct rest as [|x rest']; [unfold joinsCleanly; now destruct (head b)|].
    now apply joinsCleanly_tail, joinsCleanly_tail in Hj.
  - change ((u :: v :: rest) ++ b) with (u :: (v :: rest) ++ b).
    change ((v :: rest) ++ b) with (v :: (rest ++ b)) at 1.
    rewrite !Array_from_unit_eq by assumption.
    change (v :: rest ++ b) with ((v :: rest) ++ b).
    rewrite IH; [reflexivity|]. now apply joinsCleanly_tail in Hj.
Qed.

End AllowlistMore.

(** X13. For a character that is one code unit and no surrogate, the
    allowlist holds it exactly when the unit occurs in the configuration
    string and is not whitespace, the no-break space excepted; so a space,
    tab or newline typed between the characters never enters the set and
    U+00A0 enters whenever it is typed. *)
Theorem allowlist_unit_membership (raw : jsstring) (u : N) :
  isSurrogate u = false ->
  ([u] ∈ buildAllowedSet raw
   <-> u ∈ raw /\ (JS.isWhiteSpace u = false \/ u = 0x00A0%N)).
Proof.
  intros Hns. rewrite buildAllowedSet_elem. unfold kept. split.
  - intros [Hin Hk]. split; [eapply Array_from_units; [exact Hin | left]|].
    destruct Hk as [Hk | [= ->]]; [|now right]. left.
    destruct (JS.isWhiteSpace u) eqn:E; [|reflexivity].
    destruct Hk. now apply trim_unit.
  - intros [Hin Hk]. split; [now apply Array_from_unit_elem|].
    destruct Hk as [Hk | ->]; [|now right]. left.
    intros Ht%trim_unit. congruence.
Qed.

Lemma allowlist_unit_membership_witness :
  [0x00A0%N] ∈ buildAllowedSet [e_acute; 0x20; 0x00A0]%N
  /\ [0x20%N] ∉ buildAllowedSet [e_acute; 0x20; 0x00A0]%N.
Proof.
  split.
  - apply (allowlist_unit_membership _ 0x00A0%N); [reflexivity|].
    split; [|now right]. apply (bool_decide_unpack _). vm_compute. exact I.
  - intros H.
    apply (allowlist_unit_membership _ 0x20%N) in H as [_ [H | H]];
      [discriminate H | discriminate H | reflexivity].
Defined.

(** X14. Allowlists add up: when the first string does not end in a lead
    surrogate that the second would complete, the set built from the two
    strings joined is the union of the sets built from each. *)
Theorem allowlist_join (a b : jsstring) :
  joinsCleanly a b ->
  buildAllowedSet (a ++ b) = buildAllowedSet a ∪ buildAllowedSet b.
Proof.
  intros Hj. apply leibniz_equiv, set_equiv. intros ch.
  rewrite elem_of_union, !buildAllowedSet_elem, (Array_from_app a b Hj),
    elem_of_app.
  tauto.
Qed.

Lemma allowlist_join_witness :
  buildAllowedSet ([e_acute] ++ [0xD83D; 0xDE00]%N)
  = buildAllowedSet [e_acute] ∪ buildAllowedSet [0xD83D; 0xDE00]%N.
Proof. apply allowlist_join. reflexivity. Defined.

(** ** Settings and their way to the editors *)

Section SettingsFlow.

Lemma last_is_Some {A} (x : A) (l : list A) : exists y, last (x :: l) = Some y.
Proof.
  revert x. induction l as [|z l IH]; intros x; [now exists x|].
  destruct (IH z) as [y Hy]. exists y. exact Hy.
Qed.

Lemma default_last_cons {A} (d x : A) (l : list A) :
  default d (last (x :: l)) = default x (last l).
Proof.
  destruct l as [|z l]; [reflexivity|].
  change (last (x :: z :: l)) with (last (z :: l)).
  destruct (last_is_Some z l) as [y ->]. reflexivity.
Qed.

Lemma default_fmap_last_cons {A B} (f : A -> B) (d : B) (x : A)
    (l : list A) :
  default d (f <$> last (x :: l)) = default (f x) (f <$> last l).
Proof.
  destruct l as [|z l]; [reflexivity|].
  change (last (x :: z :: l)) with (last (z :: l)).
  destruct (last_is_Some z l) as [y ->]. reflexivity.
Qed.

Lemma settingsField_update_fields value effects :
  enabled (settingsField_update value effects)
  = default (enabled value) (last (omap toggleValue effects))
  /\ allowedSet (settingsField_update value effects)
     = default (allowedSet value)
               (buildAllowedSet <$> last (omap allowlistValue effects))
  /\ frontmatterDisabled (settingsField_update value effects)
     = default (frontmatterDisabled value)
               (last (omap frontmatterValueOf effects)).
Proof.
  unfold settingsField_update. revert value.
  induction effects as [|e effects IH]; intros value; [now repeat split|].
  cbn [fold_left]. destruct (IH (applyEffect value e)) as (H1 & H2 & H3).
  rewrite H1, H2, H3. clear.
  destruct e as [v | v | v]; cbn [omap list_omap toggleValue allowlistValue
                                   frontmatterValueOf applyEffect
                                   enabled allowedSet frontmatterDisabled];
    repeat split;
    rewrite ?default_last_cons, ?default_fmap_last_cons; reflexivity.
Qed.

(** A dispatch with effects of the plugin's own rebuilds the decorations
    of an active plugin, or deactivates it when the rebuild throws. *)
Lemma dispatch_leafPlugin effects l :
  effects <> [] ->
  leafPlugin (dispatch effects l)
  = match leafPlugin l with
    | Active _ =>
        match buildDecorationsResult (leafView (dispatch effects l)) with
        | Some d => Active d
        | None => Deactivated
        end
    | Deactivated => Deactivated
    end.
Proof.
  intros Hne. destruct effects as [|e effects]; [contradiction|].
  unfold dispatch. cbn [leafPlugin leafView].
  destruct (leafPlugin l); reflexivity.
Qed.

(** A dispatch that leaves the field suppressed leaves no decoration. *)
Lemma dispatch_suppressed effects l :
  effects <> [] ->
  negb (enabled (settingsField (leafView (dispatch effects l))))
  || frontmatterDisabled (settingsField (leafView (dispatch effects l)))
  = true ->
  leafDecorations (dispatch effects l) = Decoration_none.
Proof.
  intros Hne Hoff. unfold leafDecorations.
  rewrite (dispatch_leafPlugin effects l Hne).
  destruct (leafPlugin l); [|reflexivity].
  unfold buildDecorationsResult, buildDecorations. now rewrite Hoff.
Qed.

End SettingsFlow.

(** X15. In one transaction the last effect of each kind decides: the
    field's [enabled] is the value of the last [toggleHighlight], its
    allowlist the set built from the last [updateAllowlist], its
    [frontmatterDisabled] the value of the last
    [updateFrontmatterDisabled], and each stays as it was when the
    transaction has no effect of that kind. *)
Theorem settingsField_update_last_wins (value : SettingsFieldValue)
    (effects : list Effect) :
  enabled (settingsField_update value effects)
  = default (enabled value) (last (omap toggleValue effects))
  /\ allowedSet (settingsField_update value effects)
     = default (allowedSet value)
               (buildAllowedSet <$> last (omap allowlistValue effects))
  /\ frontmatterDisabled (settingsField_update value effects)
     = default (frontmatterDisabled value)
               (last (omap frontmatterValueOf effects)).
Proof. apply settingsField_update_fields. Qed.

(** X16. After [refreshAllEditors] an editor keeps its document, viewport
    and frontmatter flag and takes the plugin's current [enabled] flag and
    allowlist; if its plugin is active and its view has at most one visible
    range, the rebuild cannot throw and the plugin holds exactly the runs
    of the view under the new field, nothing of what it held before; a
    deactivated plugin stays deactivated, and leaves without an editor are
    passed over. *)
Theorem refreshAllEditors_rebuilds (p : Plugin) (leaves : list Leaf) :
  Forall2 (fun old new : Leaf =>
             match old, new with
             | None, None => True
             | Some l, Some l' =>
                 doc (leafView l') = doc (leafView l)
                 /\ visibleRanges (leafView l') = visibleRanges (leafView l)
                 /\ settingsField (leafView l')
                    = {| enabled := settings_enabled (settings p);
                         allowedSet :=
                           buildAllowedSet (allowedChars (settings p));
                         frontmatterDisabled :=
                           frontmatterDisabled (settingsField (leafView l)) |}
                 /\ (leafPlugin l = Deactivated ->
                     leafPlugin l' = Deactivated)
                 /\ (forall d,
                       leafPlugin l = Active d ->
                       length (visibleRanges (leafView l)) <= 1 ->
                       leafPlugin l'
                       = Active (layersOf (buildDecorations (leafView l'))))
             | _, _ => False
             end)
          leaves (refreshAllEditors p leaves).
Proof.
  unfold refreshAllEditors. apply Forall2_fmap_r, Forall_Forall2_diag.
  apply Forall_forall. intros [l|] _; [|exact I].
  cbn [fmap option_fmap option_map].
  set (effects := [toggleHighlight (settings_enabled (settings p));
                   updateAllowlist (allowedChars (settings p))]).
  assert (Hne : effects <> []) by discriminate.
  split; [reflexivity|]. split; [reflexivity|]. split; [reflexivity|].
  rewrite (dispatch_leafPlugin effects l Hne). split.
  - now intros ->.
  - intros d -> Hlen.
    now rewrite (buildDecorationsResult_single (leafView (dispatch effects l))).
Qed.

(** X17. Running the toggle command while highlighting is on leaves every
    open editor with no decoration at all; running it twice gives back the
    settings it started from. *)
Theorem toggle_off_clears_editors (p : Plugin) (leaves : list Leaf) :
  settings_enabled (settings p) = true ->
  Forall (fun leaf : Leaf =>
            match leaf with
            | Some l => leafDecorations l = Decoration_none
            | None => True
            end)
         (refreshAllEditors (toggleCommand p) leaves)
  /\ toggleCommand (toggleCommand p) = p.
Proof.
  intros Hon. split.
  - unfold refreshAllEditors. apply Forall_forall.
    intros leaf Hin. apply list_elem_of_fmap in Hin as (leaf0 & -> & _).
    destruct leaf0 as [l|]; [|exact I].
    cbn [fmap option_fmap option_map].
    apply dispatch_suppressed; [discriminate|].
    unfold toggleCommand. cbn. now rewrite Hon.
  - unfold toggleCommand. destruct p as [a [e c css]]. cbn.
    now rewrite negb_involutive.
Qed.

Lemma toggle_off_clears_editors_witness :
  Forall (fun leaf : Leaf =>
            match leaf with
            | Some l => leafDecorations l = Decoration_none
            | None => True
            end)
         (refreshAllEditors
            (toggleCommand (samplePlugin true JUndefined))
            [Some {| leafView :=
                       sampleView (samplePlugin true JUndefined)
                                  [e_acute; letter_a] [(0, 2)];
                     leafPlugin := Active [[(0, 1)]] |};
             None]).
Proof.
  apply (toggle_off_clears_editors (samplePlugin true JUndefined)).
  reflexivity.
Defined.

(** X18. When the active note is disabled by its frontmatter,
    [dispatchFrontmatterUpdate] leaves every open editor with no decoration
    at all, whichever document the editor shows. *)
Theorem dispatchFrontmatterUpdate_disabled_clears (p : Plugin)
    (leaves : list Leaf) :
  isActiveFileDisabledByFrontmatter p = true ->
  Forall (fun leaf : Leaf =>
            match leaf with
            | Some l => leafDecorations l = Decoration_none
            | None => True
            end)
         (dispatchFrontmatterUpdate p leaves).
Proof.
  intros Hdis. unfold dispatchFrontmatterUpdate. apply Forall_forall.
  intros leaf Hin. apply list_elem_of_fmap in Hin as (leaf0 & -> & _).
  destruct leaf0 as [l|]; [|exact I].
  cbn [fmap option_fmap option_map].
  apply dispatch_suppressed; [discriminate|].
  cbn. rewrite Hdis. apply orb_true_r.
Qed.

Lemma dispatchFrontmatterUpdate_disabled_clears_witness :
  Forall (fun leaf : Leaf =>
            match leaf with
            | Some l => leafDecorations l = Decoration_none
            | None => True
            end)
         (dispatchFrontmatterUpdate
            (samplePlugin true (JBoolean false))
            [Some {| leafView :=
                       sampleView (samplePlugin true JUndefined)
                                  [e_acute; letter_a] [(0, 2)];
                     leafPlugin := Active [[(0, 1)]] |}]).
Proof.
  apply (dispatchFrontmatterUpdate_disabled_clears
           (samplePlugin true (JBoolean false))).
  vm_compute. reflexivity.
Defined.

(** ** Loading the settings *)

Lemma DEFAULT_SETTINGS_no_proto : DEFAULT_SETTINGS !! PROTO = None.
Proof. vm_compute. reflexivity. Qed.

Lemma loadSettings_Some (data : gmap jsstring JSValue) :
  loadSettings (Some data) = delete PROTO data ∪ DEFAULT_SETTINGS.
Proof.
  unfold loadSettings, Object_assign.
  rewrite (right_id_L ∅ (∪)).
  now rewrite (delete_id DEFAULT_SETTINGS PROTO DEFAULT_SETTINGS_no_proto).
Qed.

(** X20. [loadSettings] takes every key other than [__proto__] from the
    saved data when it is there and from the defaults otherwise, and never
    has an own key [__proto__]; so the three settings are always present.
    With nothing saved the settings are the defaults; saved data that holds
    all three keys and no [__proto__] is loaded back unchanged, keys the
    plugin does not know included; loading what was loaded changes
    nothing. *)
Theorem loadSettings_defaults (data : gmap jsstring JSValue) :
  loadSettings None = DEFAULT_SETTINGS
  /\ (forall k,
        k <> PROTO ->
        loadSettings (Some data) !! k
        = match data !! k with
          | Some v => Some v
          | None => DEFAULT_SETTINGS !! k
          end)
  /\ loadSettings (Some data) !! PROTO = None
  /\ dom DEFAULT_SETTINGS ⊆ dom (loadSettings (Some data))
  /\ (dom DEFAULT_SETTINGS ⊆ dom data ->
      data !! PROTO = None ->
      loadSettings (Some data) = data)
  /\ delete PROTO data ⊆ loadSettings (Some data)
  /\ loadSettings (Some (loadSettings (Some data)))
     = loadSettings (Some data).
Proof.
  assert (H0 : loadSettings None = DEFAULT_SETTINGS).
  { unfold loadSettings, Object_assign. rewrite (right_id_L ∅ (∪)).
    apply (delete_id _ _ DEFAULT_SETTINGS_no_proto). }
  assert (Hlk : forall (m : gmap jsstring JSValue) k,
            (m ∪ DEFAULT_SETTINGS) !! k
            = match m !! k with
              | Some v => Some v
              | None => DEFAULT_SETTINGS !! k
              end).
  { intros m k. destruct (m !! k) as [v|] eqn:E.
    - now apply lookup_union_Some_l.
    - now apply lookup_union_r. }
  assert (Hrt : forall m : gmap jsstring JSValue,
            dom DEFAULT_SETTINGS ⊆ dom m ->
            m !! PROTO = None ->
            loadSettings (Some m) = m).
  { intros m Hdom Hp. rewrite loadSettings_Some, (delete_id m PROTO Hp).
    apply map_eq. intros k. rewrite Hlk.
    destruct (m !! k) as [v|] eqn:E; [reflexivity|].
    apply not_elem_of_dom. apply not_elem_of_dom in E. set_solver. }
  assert (Hproto : loadSettings (Some data) !! PROTO = None).
  { rewrite loadSettings_Some, Hlk, lookup_delete_eq.
    apply DEFAULT_SETTINGS_no_proto. }
  assert (Hdom : dom DEFAULT_SETTINGS ⊆ dom (loadSettings (Some data))).
  { rewrite loadSettings_Some, dom_union_L. set_solver. }
  split; [exact H0|]. split; [|split; [exact Hproto|split; [exact Hdom|]]].
  - intros k Hk. rewrite loadSettings_Some, Hlk.
    now rewrite (lookup_delete_ne data PROTO k) by congruence.
  - split; [apply Hrt|]. split.
    + rewrite loadSettings_Some. apply map_union_subseteq_l.
    + now apply Hrt.
Qed.

Lemma loadSettings_defaults_witness :
  loadSettings
    (Some {[ JS.lit "enabled" := JBoolean false;
             JS.lit "allowedChars" := JString [e_acute];
             JS.lit "customCSS" := JString [] ]})
  = {[ JS.lit "enabled" := JBoolean false;
       JS.lit "allowedChars" := JString [e_acute];
       JS.lit "customCSS" := JString [] ]}
  /\ loadSettings (Some {[ PROTO := JObject 0 ]}) !! JS.lit "enabled"
     = Some (JBoolean true).
Proof.
  split.
  - apply loadSettings_defaults.
    + apply (bool_decide_unpack _). vm_compute. exact I.
    + vm_compute. reflexivity.
  - destruct (loadSettings_defaults {[ PROTO := JObject 0 ]})
      as (_ & Hk & _).
    rewrite Hk; [|discriminate].
    vm_compute. reflexivity.
Defined.

(** ** The markup escape *)

Section Escape.

Lemma replaceAll_app c by_ a b :
  replaceAll c by_ (a ++ b) = replaceAll c by_ a ++ replaceAll c by_ b.
Proof. unfold replaceAll. apply flat_map_app. Qed.

Lemma escapeHtml_app a b :
  escapeHtml (a ++ b) = escapeHtml a ++ escapeHtml b.
Proof. unfold escapeHtml. now rewrite !replaceAll_app. Qed.

Lemma escapeHtml_unit u : escapeHtml [u] = escapeChar u.
Proof.
  unfold escapeHtml, escapeChar, replaceAll.
  destruct (u =? AMP)%N eqn:Ea; destruct (u =? LT)%N eqn:El;
    destruct (u =? GT)%N eqn:Eg; destruct (u =? QUOT)%N eqn:Eq;
    repeat (progress (simpl; rewrite ?Ea, ?El, ?Eg, ?Eq));
    reflexivity.
Qed.

Lemma escapeHtml_cons u s : escapeHtml (u :: s) = escapeChar u ++ escapeHtml s.
Proof.
  change (u :: s) with ([u] ++ s). now rewrite escapeHtml_app, escapeHtml_unit.
Qed.

Lemma escapeChar_length u : 0 < length (escapeChar u).
Proof.
  unfold escapeChar.
  destruct (u =? AMP)%N; [simpl; lia|]. destruct (u =? LT)%N; [simpl; lia|].
  destruct (u =? GT)%N; [simpl; lia|]. destruct (u =? QUOT)%N; simpl; lia.
Qed.

Lemma unescapeHtml_cons fuel u rest :
  length (escapeChar u) + length rest <= fuel ->
  exists fuel',
    length rest <= fuel'
    /\ unescapeHtml fuel (escapeChar u ++ rest) = u :: unescapeHtml fuel' rest.
Proof.
  intros Hfuel. pose proof (escapeChar_length u) as Hpos.
  destruct fuel as [|fuel']; [lia|]. exists fuel'.
  unfold escapeChar in *.
  destruct (u =? AMP)%N eqn:Ea; [apply N.eqb_eq in Ea as ->|].
  { split; [simpl in Hfuel; lia|]. reflexivity. }
  destruct (u =? LT)%N eqn:El; [apply N.eqb_eq in El as ->|].
  { split; [simpl in Hfuel; lia|]. reflexivity. }
  destruct (u =? GT)%N eqn:Eg; [apply N.eqb_eq in Eg as ->|].
  { split; [simpl in Hfuel; lia|]. reflexivity. }
  destruct (u =? QUOT)%N eqn:Eq; [apply N.eqb_eq in Eq as ->|].
  { split; [simpl in Hfuel; lia|]. reflexivity. }
  split; [simpl in Hfuel; lia|].
  change ([u] ++ rest) with (u :: rest). cbn [unescapeHtml]. now rewrite Ea.
Qed.

Lemma unescapeHtml_escapeHtml s :
  forall fuel,
    length (escapeHtml s) <= fuel ->
    unescapeHtml fuel (escapeHtml s) = s.
Proof.
  induction s as [|u s IH]; intros fuel Hfuel.
  - destruct fuel; reflexivity.
  - rewrite escapeHtml_cons in *. rewrite length_app in Hfuel.
    destruct (unescapeHtml_cons fuel u (escapeHtml s) Hfuel)
      as (fuel' & Hf & ->).
    now rewrite IH.
Qed.

End Escape.

(** X21. [escapeHtml] works character by character, although it is written
    as four replacements in a row: the ampersand of an entity it has just
    written is never escaped again.  So it distributes over concatenation
    and leaves a string without the four characters as it is. *)
Theorem escapeHtml_per_character (a b : jsstring) :
  escapeHtml a = flat_map escapeChar a
  /\ escapeHtml (a ++ b) = escapeHtml a ++ escapeHtml b
  /\ (Forall (fun u => u <> AMP /\ u <> LT /\ u <> GT /\ u <> QUOT) a ->
      escapeHtml a = a).
Proof.
  assert (H : forall s, escapeHtml s = flat_map escapeChar s).
  { induction s as [|u s IH]; [reflexivity|].
    rewrite escapeHtml_cons, IH. reflexivity. }
  split; [apply H|]. split; [apply escapeHtml_app|].
  intros Hsafe. rewrite H.
  induction Hsafe as [|u s (Ha & Hl & Hg & Hq) _ IH]; [reflexivity|].
  cbn [flat_map]. rewrite IH. unfold escapeChar.
  apply N.eqb_neq in Ha, Hl, Hg, Hq. now rewrite Ha, Hl, Hg, Hq.
Qed.

Lemma escapeHtml_per_character_witness :
  escapeHtml (JS.lit "caf" ++ [e_acute]) = JS.lit "caf" ++ [e_acute].
Proof.
  apply (escapeHtml_per_character (JS.lit "caf" ++ [e_acute]) []).
  repeat (constructor; [repeat split; discriminate|]). constructor.
Defined.

(** X22. The output of [escapeHtml] holds no [<], no [>] and no double
    quote, whatever the input. *)
Theorem escapeHtml_no_markup (s : jsstring) :
  Forall (fun u => u <> LT /\ u <> GT /\ u <> QUOT) (escapeHtml s).
Proof.
  induction s as [|u s IH]; [constructor|].
  rewrite escapeHtml_cons. apply Forall_app. split; [|exact IH].
  unfold escapeChar.
  destruct (u =? AMP)%N; [repeat (constructor; [repeat split; discriminate|]);
                          constructor|].
  destruct (u =? LT)%N eqn:El;
    [repeat (constructor; [repeat split; discriminate|]); constructor|].
  destruct (u =? GT)%N eqn:Eg;
    [repeat (constructor; [repeat split; discriminate|]); constructor|].
  destruct (u =? QUOT)%N eqn:Eq;
    [repeat (constructor; [repeat split; discriminate|]); constructor|].
  apply N.eqb_neq in El, Eg, Eq. now repeat constructor.
Qed.

(** X23. [escapeHtml] loses nothing: reading the entities back gives the
    original string, so two different strings never escape to the same
    markup. *)
Theorem escapeHtml_injective (a b : jsstring) :
  unescapeHtml (length (escapeHtml a)) (escapeHtml a) = a
  /\ (escapeHtml a = escapeHtml b -> a = b).
Proof.
  split; [now apply unescapeHtml_escapeHtml|].
  intros H.
  rewrite <- (unescapeHtml_escapeHtml a (length (escapeHtml a))) by lia.
  rewrite <- (unescapeHtml_escapeHtml b (length (escapeHtml b))) by lia.
  now rewrite H.
Qed.

Lemma escapeHtml_injective_witness :
  unescapeHtml (length (escapeHtml (JS.lit "a<b&c")))
               (escapeHtml (JS.lit "a<b&c")) = JS.lit "a<b&c"
  /\ JS.lit "a<b&c" = JS.lit "a<b&c".
Proof.
  destruct (escapeHtml_injective (JS.lit "a<b&c") (JS.lit "a<b&c"))
    as [H1 H2].
  split; [exact H1 | apply H2; reflexivity].
Defined.

Lemma isFlagged_characterisation_witness :
  isFlagged {[ [e_acute] ]} [letter_a] = false.
Proof.
  apply (isFlagged_characterisation {[ [e_acute] ]} [letter_a]).
  apply N.leb_le. reflexivity.
Defined.

(** ** The post processor *)

(** X24. The post processor never changes the text of the rendered
    element, whatever the settings, the source path and the vault. *)
Theorem postProcessor_keeps_text (p : Plugin) (el : Node)
    (sourcePath : jsstring) :
  textContent (postProcessor p el sourcePath) = textContent el.
Proof.
  unfold postProcessor.
  destruct (negb (settings_enabled (settings p))); [reflexivity|].
  match goal with |- context [if ?c then el else _] => destruct c end;
    [reflexivity|].
  apply highlightNonAsciiInReading_textContent.
Qed.

(** X25. With highlighting enabled, a rendered block whose source cannot be
    tied to a note (empty source path, no file at the path, or a folder
    there) is highlighted: frontmatter can only switch highlighting off for
    a path that resolves to a file. *)
Theorem postProcessor_unresolved_source (p : Plugin) (el : Node)
    (sourcePath : jsstring) :
  settings_enabled (settings p) = true ->
  sourcePath = []
  \/ getAbstractFileByPath (app p) sourcePath = None
  \/ (exists folder,
        getAbstractFileByPath (app p) sourcePath = Some (AFolder folder)) ->
  postProcessor p el sourcePath
  = highlightNonAsciiInReading el
      (buildAllowedSet (allowedChars (settings p))).
Proof.
  intros Hon Hsrc. unfold postProcessor. rewrite Hon. cbn [negb].
  destruct Hsrc as [-> | [-> | (folder & ->)]]; [reflexivity | |];
    now destruct (negb (length sourcePath =? 0)).
Qed.

Lemma postProcessor_unresolved_source_witness :
  postProcessor (samplePlugin true (JBoolean false)) sampleElement
                (JS.lit "other.md")
  = highlightNonAsciiInReading sampleElement ∅.
Proof.
  apply (postProcessor_unresolved_source
           (samplePlugin true (JBoolean false)) sampleElement
           (JS.lit "other.md")); [reflexivity|].
  right. left. reflexivity.
Defined.
